(** * amqplib-auto-recovery: the reconnection state machine

    A shallow embedding of [src/amqplib-auto-recovery.js].  The module exports
    one function, [withAutoRecovery(amqp, o)], whose [connect(url,
    connectCallback)] keeps a broker connection alive: it drives connect
    attempts through the [backoff] package, hands a decorated connection to
    [connectCallback], and reconnects when that connection closes unexpectedly.

    The JavaScript is a nest of closures that communicate through captured
    variables ([activeConnection], [lastError], [connectionClosed],
    [channelClosedByClient], [channelClosed]).  Each closure level becomes a
    record of its captured variables, each listener or method a function on
    those records that also returns the calls it makes on the outside world
    (the client's callbacks, the raw amqplib objects, [process.nextTick]), in
    program order.  The outside world drives the machine through events.

    What is assumed of the outside world:
    - amqplib honours its callback API: the callback of [amqp.connect] is
      called once per call, with an error object or a connection; a raw
      connection emits 'close' at most once; errors are objects.
    - The client's callbacks return normally.  A call the client makes from
      inside a callback (say the wrapper's [close] from within
      [connectCallback]) is an event of its own, placed after the handler:
      the statements that follow a client callback in a handler (the retry
      loop's [cb(...)], [closeConnection()]) read no captured variable that
      such a call can change.
    - The retry loop is the [backoff] package's, which is not part of the
      sources; it is modelled from its description (see [FunctionCall]). *)

From stdpp Require Import base option list list_numbers strings.
From Stdlib Require Import Lia.

(** ** Values *)

(** An [Error] object, as far as the code looks into it: [e.name] in
    [closeConnection], [err.message] in the messages given to [onError].
    Errors are objects, hence truthy: [if (err)] and [!lastError] test
    presence, which [option error] expresses. *)
Record error := Error { name : string; message : string }.

#[global] Instance error_eq_dec : EqDecision error.
Proof. solve_decision. Defined.

(** Handles of the objects amqplib hands out, and of the functions the client
    passes in. *)
Definition con_ref := nat.
Definition ch_ref := nat.
Definition callback := nat.

(** ** Calls on the outside world

    What a handler does besides updating captured variables, in program
    order.  Wrappers are named by the [connect] invocation that built them
    (and a channel proxy by its position among that connection's channels). *)
Inductive action :=
| amqp_connect (url : string)
    (* amqp.connect(url, ...) : a connect attempt starts *)
| connectCallback (err : option error) (wrapper : option nat)
    (* connectCallback(err)  /  connectCallback(null, Object.create(con, ...)) *)
| onError (msg : string)
    (* onError(new Error(msg)) *)
| nextTick_connect (url : string)
    (* process.nextTick(connect, url, connectCallback) *)
| backoff_callback
    (* the () => {} given to backoff.call as its completion callback *)
| con_close (c : con_ref) (cb : option callback)
    (* con.close(cb), con.close() *)
| con_createChannel (c : con_ref) (confirm : bool) (cb : callback)
    (* con.createChannel(channelCallback.bind(null, cb)), or the Confirm one *)
| channel_callback (cb : callback) (err : option error) (proxy : option (nat * nat))
    (* cb(err)  /  cb(null, new Proxy(ch, ...)) *)
| target_close (ch : ch_ref) (cb : option callback)
    (* target.close(cb) *)
| uncaught (e : error).
    (* an exception leaves the handler *)

#[global] Instance action_eq_dec : EqDecision action.
Proof. solve_decision. Defined.

(** ** The retry loop *)

(** Modelled from the spec: the [backoff] package ([backoff.call], its
    [FunctionCall] and strategies) is a dependency of the repository and not
    among its sources.  Section 4.1 of the specification describes the loop
    it runs: the attempt function is invoked with a completion callback
    [done]; the loop is then in one of three states. *)
Inductive FunctionCall :=
| calling      (* the attempt function runs, [done] not called yet *)
| backing_off  (* [done(err)] : the next attempt waits for the delay *)
| completed.   (* [done(null)] : the loop is over *)

#[global] Instance FunctionCall_eq_dec : EqDecision FunctionCall.
Proof. solve_decision. Defined.

(** Modelled from the spec: what calling [done] does (section 4.1).
    [done(err)] with a truthy [err] schedules another invocation of the
    attempt after the strategy's delay; [done(null)] stops the loop.  The
    source signals an unrecoverable error by [done(null)], so the stop that
    invokes the callback given to [backoff.call] and the stop on [done(null)]
    are one transition.  The delay is not modelled: its expiry is an event. *)
Definition done (err : option error) : FunctionCall * list action :=
  match err with
  | Some _ => (backing_off, [])
  | None => (completed, [backoff_callback])
  end.

(** ** Captured variables *)

(** One [channelCallback] success: [ch], [channelClosedByClient] (declared
    without a value, so falsy until [close] sets it) and [channelClosed]. *)
Record channel := Channel {
  target : ch_ref;
  channelClosedByClient : bool;
  channelClosed : bool
}.

(** One successful attempt: [con], [lastError], [connectionClosed], and the
    channels created through the decorated connection. *)
Record connection := Connection {
  con : con_ref;
  lastError : option error;
  connectionClosed : bool;
  channels : list channel
}.

(** One invocation of [connect(url, connectCallback)]: [activeConnection],
    the [spec] returned by [backoff.call], and the closure of the attempt
    that succeeded, if one has. *)
Record supervisor := Supervisor {
  activeConnection : option con_ref;
  spec : FunctionCall;
  established : option connection
}.

(** The process: every [connect] invocation so far, and the number of
    [process.nextTick(connect, ...)] tasks not yet run. *)
Record state := State {
  calls : list supervisor;
  ticks : nat
}.

(** The [o] argument of [withAutoRecovery].  [onError] is observed as an
    action whether or not the client supplied one. *)
Record options := Options {
  o_isErrorUnrecoverable : option (error → bool)
}.

(** ** Events

    amqplib and the client, seen from the module.  [i] names a [connect]
    invocation, [j] a channel of its connection. *)
Inductive event :=
| ev_tick
    (* the event loop runs a queued process.nextTick(connect, ...) *)
| ev_connected (i : nat) (res : error + con_ref)
    (* amqp.connect calls back with (err) or (null, con) *)
| ev_backoff_ready (i : nat)
    (* the backoff delay has elapsed *)
| ev_con_error (i : nat) (err : error)
    (* con emits 'error' *)
| ev_con_close (i : nat)
    (* con emits 'close' *)
| ev_channel (i : nat) (cb : callback) (res : error + ch_ref) (raised : option error)
    (* con.createChannel calls back with (err) or (null, ch);
       [raised] is what a forced con.close() throws, if it comes to that *)
| ev_ch_error (i j : nat) (err : error)
    (* ch emits 'error' *)
| ev_ch_close (i j : nat) (raised : option error)
    (* ch emits 'close' *)
| cl_createChannel (i : nat) (confirm : bool) (cb : callback)
    (* the client calls wrapper.createChannel(cb) / createConfirmChannel(cb) *)
| cl_close (i : nat) (cb : option callback)
    (* the client calls wrapper.close(cb) *)
| cl_closeAndReconnect (i : nat) (cb : option callback)
    (* the client calls wrapper.closeAndReconnect(cb) *)
| cl_ch_close (i j : nat) (cb : option callback).
    (* the client calls close(cb) on a channel proxy *)

#[global] Instance event_eq_dec : EqDecision event.
Proof. solve_decision. Defined.

(** The [connect] invocation an event is delivered to. *)
Definition target_of (e : event) : option nat :=
  match e with
  | ev_tick => None
  | ev_connected i _ | ev_backoff_ready i | ev_con_error i _ | ev_con_close i
  | ev_channel i _ _ _ | ev_ch_error i _ _ | ev_ch_close i _ _
  | cl_createChannel i _ _ | cl_close i _ | cl_closeAndReconnect i _
  | cl_ch_close i _ _ => Some i
  end.

Definition is_nextTick (a : action) : bool :=
  match a with nextTick_connect _ => true | _ => false end.
Definition is_amqp_connect (a : action) : bool :=
  match a with amqp_connect _ => true | _ => false end.
Definition is_connectCallback (a : action) : bool :=
  match a with connectCallback _ _ => true | _ => false end.
Definition is_con_close (a : action) : bool :=
  match a with con_close _ _ => true | _ => false end.
Definition is_channel_callback (a : action) : bool :=
  match a with channel_callback _ _ _ => true | _ => false end.
Definition is_onError (a : action) : bool :=
  match a with onError _ => true | _ => false end.

(** How often a kind of action occurs in a trace. *)
Definition count (p : action → bool) (tr : list action) : nat :=
  length (List.filter p tr).

(** ** A worked scenario

    A client that treats authentication failures as unrecoverable, and the
    states of one [connect] invocation after its first attempt succeeded. *)

Definition example_options : options :=
  Options (Some (λ e, String.eqb (name e) "AuthError")).

Definition example_url : string := "amqp://localhost".

Definition ECONNREFUSED : error := Error "Error" "connect ECONNREFUSED".
Definition ACCESS_REFUSED : error := Error "AuthError" "ACCESS_REFUSED".
Definition CONNECTION_CLOSING : error :=
  Error "IllegalOperationError" "Connection closing".

(** [connect] was called and raw connection 7 was obtained at once. *)
Definition up : state :=
  State [Supervisor (Some 7) completed (Some (Connection 7 None false []))] 0.

(** The same, with one channel (raw channel 11) open. *)
Definition up_with_channel : state :=
  State [Supervisor (Some 7) completed
           (Some (Connection 7 None false [Channel 11 false false]))] 0.

Section withAutoRecovery.

Variable o : options.
Variable url : string.

(** [const isErrorUnrecoverable = o.isErrorUnrecoverable || (() => false)] *)
Definition isErrorUnrecoverable : error → bool :=
  default (λ _, false) (o_isErrorUnrecoverable o).

(** [function connect(url, connectCallback)]: a fresh [activeConnection],
    [backoff.call(...)], and [spec.start()] invokes the attempt function,
    which calls [amqp.connect]. *)
Definition connect : supervisor * list action :=
  (Supervisor None calling None, [amqp_connect url]).

(** The callback given to [amqp.connect]: [(err, con) => { ... }], in the
    [connect] invocation [i]. *)
Definition connected (i : nat) (res : error + con_ref) (s : supervisor)
  : supervisor * list action :=
  match res with
  | inl err =>
      let '(sp, out) :=
        done (if negb (isErrorUnrecoverable err) then Some err else None) in
      (Supervisor (activeConnection s) sp (established s),
       connectCallback (Some err) None :: out)
  | inr c =>
      let '(sp, out) := done None in
      (Supervisor (Some c) sp (Some (Connection c None false [])),
       connectCallback None (Some i) :: out)
  end.

(** [con.on('error', (err) => { ... })] *)
Definition con_on_error (err : error) (k : connection)
  : connection * list action :=
  (Connection (con k) (Some err) (connectionClosed k) (channels k),
   [onError ("Connection failed (" +:+ message err +:+ ")")]).

(** The test of the 'close' listener:
    [activeConnection] and then [!lastError || !isErrorUnrecoverable(lastError)]. *)
Definition should_reconnect (active : option con_ref) (last : option error) : bool :=
  match active with
  | Some _ =>
      match last with
      | None => true
      | Some e => negb (isErrorUnrecoverable e)
      end
  | None => false
  end.

(** [con.on('close', () => { ... })] *)
Definition con_on_close (active : option con_ref) (k : connection)
  : connection * list action :=
  (Connection (con k) (lastError k) true (channels k),
   if should_reconnect active (lastError k) then [nextTick_connect url] else []).

(** [closeConnection]: [try { con.close() } catch (e) { ... }].  [raised]
    is what the raw [con.close()] throws; the result pairs the calls made
    with the exception that leaves [closeConnection]. *)
Definition closeConnection (k : connection) (raised : option error)
  : list action * option error :=
  ([con_close (con k) None],
   match raised with
   | Some e => if negb (String.eqb (name e) "IllegalOperationError") then Some e else None
   | None => None
   end).

(** A handler whose last statement is [closeConnection()]: an exception
    leaving it leaves the handler. *)
Definition rethrow (r : list action * option error) : list action :=
  match r.2 with
  | Some e => r.1 ++ [uncaught e]
  | None => r.1
  end.

(** [channelCallback = (cb, err, ch) => { ... }] *)
Definition channelCallback (i : nat) (cb : callback) (res : error + ch_ref)
    (raised : option error) (k : connection) : connection * list action :=
  match res with
  | inl err =>
      let k' := Connection (con k) (Some err) (connectionClosed k) (channels k) in
      (k',
       onError ("Failed to create a channel (" +:+ message err +:+ ")")
         :: channel_callback cb (Some err) None
         :: rethrow (closeConnection k' raised))
  | inr ch =>
      (Connection (con k) (lastError k) (connectionClosed k)
         (channels k ++ [Channel ch false false]),
       [channel_callback cb None (Some (i, length (channels k)))])
  end.

(** [ch.on('error', (err) => { ... })] *)
Definition ch_on_error (err : error) (k : connection)
  : connection * list action :=
  (Connection (con k) (Some err) (connectionClosed k) (channels k),
   [onError ("Channel failed (" +:+ message err +:+ ")")]).

(** [ch.on('close', () => { ... })] for the channel at [j]:
    [channelClosedByClient || closeConnection()]. *)
Definition ch_on_close (j : nat) (raised : option error) (k : connection)
  : option (connection * list action) :=
  c ← channels k !! j;
  Some (Connection (con k) (lastError k) (connectionClosed k)
          (<[j := Channel (target c) (channelClosedByClient c) true]> (channels k)),
        if channelClosedByClient c then []
        else rethrow (closeConnection k raised)).

(** The proxy's [close]: [channelClosedByClient = true; target.close(cb)]. *)
Definition channel_close (j : nat) (cb : option callback) (k : connection)
  : option (connection * list action) :=
  c ← channels k !! j;
  Some (Connection (con k) (lastError k) (connectionClosed k)
          (<[j := Channel (target c) true (channelClosed c)]> (channels k)),
        [target_close (target c) cb]).

(** The proxy's [closed]. *)
Definition channel_closed (j : nat) (k : connection) : option bool :=
  channelClosed <$> channels k !! j.

(** The decorated connection's [createChannel] and [createConfirmChannel]. *)
Definition createChannel (cb : callback) (k : connection) : list action :=
  [con_createChannel (con k) false cb].
Definition createConfirmChannel (cb : callback) (k : connection) : list action :=
  [con_createChannel (con k) true cb].

(** The decorated connection's [close]:
    [activeConnection = null; con.close(cb)]. *)
Definition close (cb : option callback) (s : supervisor) (k : connection)
  : supervisor * list action :=
  (Supervisor None (spec s) (established s), [con_close (con k) cb]).

(** The decorated connection's [closeAndReconnect]: [con.close(cb)]. *)
Definition closeAndReconnect (cb : option callback) (s : supervisor) (k : connection)
  : supervisor * list action :=
  (s, [con_close (con k) cb]).

(** The decorated connection's [closed] getter. *)
Definition closed (s : supervisor) : option bool :=
  connectionClosed <$> established s.

(** ** Delivery of events *)

(** A listener or method of the connection closure runs on [established]. *)
Definition in_connection (s : supervisor) (r : connection * list action)
  : supervisor * list action :=
  (Supervisor (activeConnection s) (spec s) (Some r.1), r.2).

(** What the [connect] invocation [i], in state [s], does on an event; [None]
    when the event cannot occur: amqplib calls the [amqp.connect] callback
    once per call, the delay expires only while the loop is backing off,
    listeners and wrappers exist once the attempt has succeeded, and a raw
    connection emits 'close' once. *)
Definition handle (i : nat) (e : event) (s : supervisor)
  : option (supervisor * list action) :=
  match e with
  | ev_tick => None
  | ev_connected _ res =>
      match spec s with
      | calling => Some (connected i res s)
      | _ => None
      end
  | ev_backoff_ready _ =>
      match spec s with
      | backing_off =>
          Some (Supervisor (activeConnection s) calling (established s),
                [amqp_connect url])
      | _ => None
      end
  | ev_con_error _ err =>
      k ← established s; Some (in_connection s (con_on_error err k))
  | ev_con_close _ =>
      k ← established s;
      if connectionClosed k then None
      else Some (in_connection s (con_on_close (activeConnection s) k))
  | ev_channel _ cb res raised =>
      k ← established s; Some (in_connection s (channelCallback i cb res raised k))
  | ev_ch_error _ j err =>
      k ← established s; _ ← channels k !! j;
      Some (in_connection s (ch_on_error err k))
  | ev_ch_close _ j raised =>
      k ← established s; in_connection s <$> ch_on_close j raised k
  | cl_createChannel _ confirm cb =>
      k ← established s;
      Some (s, if confirm then createConfirmChannel cb k else createChannel cb k)
  | cl_close _ cb =>
      k ← established s; Some (close cb s k)
  | cl_closeAndReconnect _ cb =>
      k ← established s; Some (closeAndReconnect cb s k)
  | cl_ch_close _ j cb =>
      k ← established s; in_connection s <$> channel_close j cb k
  end.

(** One turn of the event loop.  A queued [nextTick] task runs [connect],
    which adds an invocation; every other event goes to its invocation, and
    the [process.nextTick] calls it makes are queued. *)
Definition step (st : state) (e : event) : option (state * list action) :=
  match target_of e with
  | None =>
      match ticks st with
      | 0 => None
      | S n => Some (State (calls st ++ [connect.1]) n, connect.2)
      end
  | Some i =>
      s ← calls st !! i;
      r ← handle i e s;
      Some (State (<[i := r.1]> (calls st)) (ticks st + count is_nextTick r.2), r.2)
  end.

(** A sequence of turns, with the calls made along the way. *)
Fixpoint run (st : state) (evs : list event) : option (state * list action) :=
  match evs with
  | [] => Some (st, [])
  | e :: evs =>
      r ← step st e;
      r' ← run r.1 evs;
      Some (r'.1, r.2 ++ r'.2)
  end.

(** The client calls [connect(url, connectCallback)] on the decorated
    client, and the events [evs] follow. *)
Definition boot : state * list action := (State [connect.1] 0, connect.2).

Definition execute (evs : list event) : option (state * list action) :=
  r ← run boot.1 evs; Some (r.1, boot.2 ++ r.2).

(** The decorated connection's [closed], for the wrapper built by invocation [i]. *)
Definition wrapper_closed (st : state) (i : nat) : option bool :=
  s ← calls st !! i; closed s.

(** ** Measures and history *)

(** An invocation can still cause connect activity while its retry loop
    runs, or while its connection has not emitted 'close'. *)
Definition looping (s : supervisor) : bool :=
  match spec s with completed => false | _ => true end.

Definition is_open (s : supervisor) : bool :=
  match established s with
  | Some k => negb (connectionClosed k)
  | None => false
  end.

Definition live_sup (s : supervisor) : nat :=
  (if looping s then 1 else 0) + (if is_open s then 1 else 0).

Definition live (st : state) : nat :=
  ticks st + sum_list_with live_sup (calls st).

(** An invocation from which no connect activity can come any more. *)
Definition idle (s : supervisor) : bool :=
  negb (looping s) && (negb (is_open s) || bool_decide (activeConnection s = None)).

Definition quiescent (st : state) : Prop :=
  ticks st = 0 ∧ Forall (λ s, idle s = true) (calls st).

(** Attempts whose [amqp.connect] has not called back yet. *)
Definition in_flight_sup (s : supervisor) : nat :=
  match spec s with calling => 1 | _ => 0 end.

Definition in_flight (st : state) : nat :=
  sum_list_with in_flight_sup (calls st).

(** Connect activity: attempts, their callbacks, scheduled reconnects. *)
Definition is_connect_activity (a : action) : bool :=
  is_amqp_connect a || is_connectCallback a || is_nextTick a.

(** What the history says about the wrapper of invocation [i]. *)
Definition is_cl_close (i : nat) (e : event) : bool :=
  match e with cl_close i' _ => bool_decide (i' = i) | _ => false end.

Definition is_ev_con_close (i : nat) (e : event) : bool :=
  match e with ev_con_close i' => bool_decide (i' = i) | _ => false end.

Definition is_cl_ch_close (i j : nat) (e : event) : bool :=
  match e with
  | cl_ch_close i' j' _ => bool_decide (i' = i) && bool_decide (j' = j)
  | _ => false
  end.

Definition closed_by_client (i : nat) (evs : list event) : bool :=
  existsb (is_cl_close i) evs.

Definition close_emitted (i : nat) (evs : list event) : bool :=
  existsb (is_ev_con_close i) evs.

Definition ch_closed_by_client (i j : nat) (evs : list event) : bool :=
  existsb (is_cl_ch_close i j) evs.

(** What the captured variables say. *)
Definition marker_cleared (os : option supervisor) : bool :=
  match os with
  | Some s =>
      match established s with
      | Some _ => bool_decide (activeConnection s = None)
      | None => false
      end
  | None => false
  end.

Definition closed_flag (os : option supervisor) : bool :=
  match os with
  | Some s => default false (closed s)
  | None => false
  end.

Definition client_flag (os : option supervisor) (j : nat) : bool :=
  match os with
  | Some s =>
      match established s with
      | Some k => default false (channelClosedByClient <$> channels k !! j)
      | None => false
      end
  | None => false
  end.

(** A retry loop that has delivered a connection is over. *)
Definition loop_over (s : supervisor) : Prop :=
  established s ≠ None → spec s = completed.

(** The captured variables agree with the history. *)
Definition agrees (evs : list event) (st : state) : Prop :=
  Forall loop_over (calls st) ∧
  ∀ i, marker_cleared (calls st !! i) = closed_by_client i evs
       ∧ closed_flag (calls st !! i) = close_emitted i evs
       ∧ ∀ j, client_flag (calls st !! i) j = ch_closed_by_client i j evs.

(** The events of [n] failed attempts followed by a successful one, in the
    retry loop of invocation [i]. *)
Definition attempts (i : nat) (errs : list error) (c : con_ref) : list event :=
  flat_map (λ e, [ev_connected i (inl e); ev_backoff_ready i]) errs
    ++ [ev_connected i (inr c)].

(** ** More of the history *)

(** Where a report to [onError] comes from: the connection's 'error'
    listener, the error branch of [channelCallback], or a channel's 'error'
    listener. *)
Inductive origin := from_connection | from_channel_creation | from_channel.

Definition origin_of (e : event) : option (origin * error) :=
  match e with
  | ev_con_error _ err => Some (from_connection, err)
  | ev_channel _ _ (inl err) _ => Some (from_channel_creation, err)
  | ev_ch_error _ _ err => Some (from_channel, err)
  | _ => None
  end.

(** The message of the [Error] each of the three sites builds. *)
Definition report (og : origin) (err : error) : string :=
  match og with
  | from_connection => "Connection failed (" +:+ message err +:+ ")"
  | from_channel_creation => "Failed to create a channel (" +:+ message err +:+ ")"
  | from_channel => "Channel failed (" +:+ message err +:+ ")"
  end.

(** The error an event hands to invocation [i] for recording, if any. *)
Definition recorded_error (i : nat) (e : event) : option error :=
  match e with
  | ev_con_error i' err | ev_ch_error i' _ err | ev_channel i' _ (inl err) _ =>
      if bool_decide (i' = i) then Some err else None
  | _ => None
  end.

(** The latest of them in a history. *)
Definition last_error (i : nat) (evs : list event) : option error :=
  foldl (λ last e, match recorded_error i e with
                   | Some err => Some err
                   | None => last
                   end) None evs.

Definition is_ev_ch_close (i j : nat) (e : event) : bool :=
  match e with
  | ev_ch_close i' j' _ => bool_decide (i' = i) && bool_decide (j' = j)
  | _ => false
  end.

Definition ch_close_emitted (i j : nat) (evs : list event) : bool :=
  existsb (is_ev_ch_close i j) evs.

(** The [closed] of the channel proxy [j] of invocation [i]. *)
Definition proxy_closed (st : state) (i j : nat) : option bool :=
  s ← calls st !! i; k ← established s; channel_closed j k.

(** [connectCallback(null, wrapper)] for the wrapper of invocation [i]. *)
Definition is_delivery (i : nat) (a : action) : bool :=
  match a with
  | connectCallback None (Some i') => bool_decide (i' = i)
  | _ => false
  end.

(** Views of one invocation's captured variables, with the value they have
    while the invocation or its connection does not exist. *)
Definition lastError_of (os : option supervisor) : option error :=
  s ← os; k ← established s; lastError k.

Definition channelClosed_of (j : nat) (os : option supervisor) : bool :=
  default false (s ← os; k ← established s; channel_closed j k).

Definition has_wrapper (os : option supervisor) : nat :=
  match os ≫= established with Some _ => 1 | None => 0 end.

(** * Properties *)

(** ** Executions *)

Lemma run_app st evs1 evs2 :
  run st (evs1 ++ evs2) =
  r ← run st evs1; r' ← run r.1 evs2; Some (r'.1, r.2 ++ r'.2).
Proof.
  revert st. induction evs1 as [|e evs1 IH]; intros st; simpl.
  - destruct (run st evs2) as [[st' tr]|]; reflexivity.
  - destruct (step st e) as [[st1 out]|]; simpl; [|reflexivity].
    rewrite IH. destruct (run st1 evs1) as [[st2 tr]|]; simpl; [|reflexivity].
    destruct (run st2 evs2) as [[st3 tr']|]; simpl; [|reflexivity].
    by rewrite (assoc_L (++)).
Qed.

Lemma run_cons_inv st e evs st' tr :
  run st (e :: evs) = Some (st', tr) →
  ∃ st1 out tr', step st e = Some (st1, out) ∧ run st1 evs = Some (st', tr')
                 ∧ tr = out ++ tr'.
Proof.
  simpl. destruct (step st e) as [[st1 out]|]; simpl; [|done].
  destruct (run st1 evs) as [[st2 tr']|] eqn:Hr; simpl; [|done].
  intros [= <- <-]. eauto 6.
Qed.

Lemma run_app_inv st evs1 evs2 st' tr :
  run st (evs1 ++ evs2) = Some (st', tr) →
  ∃ st1 tr1 tr2, run st evs1 = Some (st1, tr1) ∧ run st1 evs2 = Some (st', tr2)
                 ∧ tr = tr1 ++ tr2.
Proof.
  rewrite run_app. destruct (run st evs1) as [[st1 tr1]|]; simpl; [|done].
  destruct (run st1 evs2) as [[st2 tr2]|] eqn:Hr; simpl; [|done].
  intros [= <- <-]. eauto 6.
Qed.

Lemma run_one st e st' out :
  step st e = Some (st', out) → run st [e] = Some (st', out).
Proof. intros H. simpl. rewrite H. simpl. by rewrite (right_id_L [] (++)). Qed.

Lemma execute_inv evs st tr :
  execute evs = Some (st, tr) →
  ∃ tr', run boot.1 evs = Some (st, tr') ∧ tr = boot.2 ++ tr'.
Proof.
  unfold execute. destruct (run _ evs) as [[st' tr']|]; simpl; [|done].
  intros [= <- <-]. eauto.
Qed.

Lemma execute_app evs evs' st tr st' tr' :
  execute evs = Some (st, tr) → run st evs' = Some (st', tr') →
  execute (evs ++ evs') = Some (st', tr ++ tr').
Proof.
  intros (tr0 & Hr & ->)%execute_inv Hr'. unfold execute.
  rewrite run_app, Hr. simpl. rewrite Hr'. done.
Qed.

Lemma execute_snoc evs e st tr st' out :
  execute evs = Some (st, tr) → step st e = Some (st', out) →
  execute (evs ++ [e]) = Some (st', tr ++ out).
Proof. intros H Hs. eapply execute_app; [done|]. by apply run_one. Qed.

(** Induction over executions, one event at a time. *)
Lemma execute_ind (P : list event → state → list action → Prop) :
  P [] boot.1 boot.2 →
  (∀ evs st tr e st' out,
     execute evs = Some (st, tr) → P evs st tr →
     step st e = Some (st', out) → P (evs ++ [e]) st' (tr ++ out)) →
  ∀ evs st tr, execute evs = Some (st, tr) → P evs st tr.
Proof.
  intros Hinit Hstep evs. induction evs as [|e evs IH] using rev_ind; intros st tr.
  - intros [= <- <-]. exact Hinit.
  - intros (tr0 & Hr & ->)%execute_inv.
    apply run_app_inv in Hr as (st1 & tr1 & tr2 & Hr1 & Hr2 & ->).
    apply run_cons_inv in Hr2 as (st2 & out & tr3 & Hs & Hr3 & ->).
    injection Hr3 as <- <-.
    assert (execute evs = Some (st1, boot.2 ++ tr1)) as Hex.
    { unfold execute. by rewrite Hr1. }
    replace (boot.2 ++ tr1 ++ out ++ []) with ((boot.2 ++ tr1) ++ out)
      by (by rewrite (right_id_L [] (++)), (assoc_L (++))).
    eapply Hstep; eauto.
Qed.

(** ** One turn *)

Lemma step_tick_inv st st' out :
  step st ev_tick = Some (st', out) →
  ∃ n, ticks st = S n ∧ st' = State (calls st ++ [connect.1]) n
       ∧ out = connect.2.
Proof.
  unfold step. simpl. destruct (ticks st) as [|n]; [done|].
  intros [= <- <-]. eauto.
Qed.

Lemma step_target_inv st e i st' out :
  target_of e = Some i → step st e = Some (st', out) →
  ∃ s s', calls st !! i = Some s ∧ handle i e s = Some (s', out)
          ∧ st' = State (<[i := s']> (calls st)) (ticks st + count is_nextTick out).
Proof.
  unfold step. intros ->.
  destruct (calls st !! i) as [s|]; simpl; [|done].
  destruct (handle i e s) as [[s' out']|] eqn:Hh; simpl; [|done].
  intros [= <- <-]. eauto.
Qed.

Lemma step_inv st e st' out :
  step st e = Some (st', out) →
  (e = ev_tick ∧ ∃ n, ticks st = S n ∧ st' = State (calls st ++ [connect.1]) n
                      ∧ out = connect.2)
  ∨ (∃ i s s', target_of e = Some i ∧ calls st !! i = Some s
               ∧ handle i e s = Some (s', out)
               ∧ st' = State (<[i := s']> (calls st)) (ticks st + count is_nextTick out)).
Proof.
  intros H. destruct (target_of e) as [i|] eqn:Ht.
  - right. destruct (step_target_inv _ _ _ _ _ Ht H) as (s & s' & ?). eauto 8.
  - left. assert (e = ev_tick) as -> by (by destruct e).
    split; [done|]. by apply step_tick_inv.
Qed.

(** ** Counting *)

Lemma count_app p tr1 tr2 : count p (tr1 ++ tr2) = count p tr1 + count p tr2.
Proof. unfold count. by rewrite List.filter_app, length_app. Qed.

Lemma count_zero_Forall p tr : count p tr = 0 ↔ Forall (λ a, p a = false) tr.
Proof.
  unfold count. induction tr as [|a tr IH]; simpl.
  - split; [constructor|done].
  - rewrite Forall_cons. destruct (p a); simpl.
    + split; [done|by intros [? _]].
    + rewrite IH. split; [by split|by intros [_ ?]].
Qed.

Lemma sum_list_with_insert {A} (f : A → nat) (l : list A) i x y :
  l !! i = Some x →
  sum_list_with f (<[i := y]> l) + f x = sum_list_with f l + f y.
Proof.
  revert i. induction l as [|a l IH]; intros i H; [done|].
  destruct i as [|i]; simpl in *; [injection H as ->; lia|].
  specialize (IH _ H). lia.
Qed.

Lemma sum_list_with_lookup2 {A} (f : A → nat) (l : list A) i j x y :
  i ≠ j → l !! i = Some x → l !! j = Some y → f x + f y ≤ sum_list_with f l.
Proof.
  revert i j. induction l as [|a l IH]; intros [|i] [|j] Hne Hi Hj; simplify_eq/=.
  - pose proof (sum_list_with_in y f l (list_elem_of_lookup_2 _ _ _ Hj)). lia.
  - pose proof (sum_list_with_in x f l (list_elem_of_lookup_2 _ _ _ Hi)). lia.
  - assert (i ≠ j) as Hne' by congruence.
    specialize (IH _ _ Hne' Hi Hj). lia.
Qed.

(** ** What one invocation does on one event *)

Ltac handle_inv H :=
  unfold handle, in_connection, ch_on_close, channel_close, close,
    closeAndReconnect, connected, channelCallback, con_on_close, con_on_error,
    ch_on_error, createChannel, createConfirmChannel, rethrow, closeConnection,
    done in H;
  simpl in H;
  repeat (first [ progress simplify_option_eq | case_match ]).

Lemma handle_live i e s s' out :
  handle i e s = Some (s', out) →
  live_sup s' + count is_nextTick out ≤ live_sup s.
Proof.
  intros H. destruct s as [a [] [[c le [] chs]|]]; destruct e; handle_inv H;
    unfold live_sup, looping, is_open, count; simpl; repeat case_match; simpl; lia.
Qed.

Lemma handle_idle i e s s' out :
  idle s = true → handle i e s = Some (s', out) →
  idle s' = true ∧ count is_connect_activity out = 0.
Proof.
  intros Hidle H.
  destruct s as [[a|] [] [[c le [] chs]|]]; try discriminate Hidle;
    destruct e; handle_inv H; done.
Qed.

Lemma handle_in_flight i e s s' out :
  handle i e s = Some (s', out) →
  count is_connectCallback out + in_flight_sup s'
  = count is_amqp_connect out + in_flight_sup s.
Proof.
  intros H. destruct s as [a [] [[c le [] chs]|]]; destruct e; handle_inv H; done.
Qed.

Lemma handle_loop_over i e s s' out :
  loop_over s → handle i e s = Some (s', out) → loop_over s'.
Proof.
  unfold loop_over. intros Hs H.
  destruct s as [a [] [[c le [] chs]|]]; simpl in *;
    try (by specialize (Hs ltac:(done)));
    destruct e; handle_inv H; done.
Qed.

(** The three flags change only on the events that set them. *)
Lemma handle_marker_cleared i e s s' out :
  loop_over s → handle i e s = Some (s', out) →
  marker_cleared (Some s') =
  marker_cleared (Some s) || (if e is cl_close _ _ then true else false).
Proof.
  unfold loop_over. intros Hs H.
  destruct s as [[a|] [] [[c le [] chs]|]]; simpl in *;
    try (by specialize (Hs ltac:(done)));
    destruct e; handle_inv H; done.
Qed.

Lemma handle_closed_flag i e s s' out :
  loop_over s → handle i e s = Some (s', out) →
  closed_flag (Some s') =
  closed_flag (Some s) || (if e is ev_con_close _ then true else false).
Proof.
  unfold loop_over. intros Hs H.
  destruct s as [a [] [[c le [] chs]|]]; simpl in *;
    try (by specialize (Hs ltac:(done)));
    destruct e; handle_inv H; done.
Qed.

Lemma flag_lookup_insert (chs : list channel) j0 j c c' :
  chs !! j0 = Some c →
  default false (channelClosedByClient <$> <[j0 := c']> chs !! j)
  = if decide (j0 = j) then channelClosedByClient c'
    else default false (channelClosedByClient <$> chs !! j).
Proof.
  intros H. destruct (decide (j0 = j)) as [->|Hne].
  - rewrite list_lookup_insert_eq; [done|]. by eapply lookup_lt_Some.
  - by rewrite list_lookup_insert_ne.
Qed.

Lemma flag_lookup_snoc (chs : list channel) j t :
  default false (channelClosedByClient <$> (chs ++ [Channel t false false]) !! j)
  = default false (channelClosedByClient <$> chs !! j).
Proof.
  rewrite lookup_app. destruct (chs !! j) as [c|] eqn:Hj; [done|].
  by destruct (j - length chs) as [|[|n]].
Qed.

Lemma handle_client_flag i e s s' out j :
  loop_over s → handle i e s = Some (s', out) →
  client_flag (Some s') j =
  client_flag (Some s) j
  || (if e is cl_ch_close _ j' _ then bool_decide (j' = j) else false).
Proof.
  unfold loop_over. intros Hs H.
  destruct s as [a [] [[c le [] chs]|]]; simpl in *;
    try (by specialize (Hs ltac:(done)));
    destruct e; handle_inv H; simpl;
    rewrite ?orb_false_r, ?orb_true_r, ?flag_lookup_snoc; try done;
    (erewrite flag_lookup_insert by eassumption); case_decide; simplify_eq/=;
    try done; by match goal with Hl : _ !! _ = Some _ |- _ => rewrite Hl end.
Qed.

(** ** Invariants of a turn *)

Lemma count_activity_zero out :
  count is_connect_activity out = 0 →
  count is_amqp_connect out = 0 ∧ count is_connectCallback out = 0
  ∧ count is_nextTick out = 0.
Proof.
  rewrite !count_zero_Forall. intros H.
  repeat split; eapply Forall_impl; try exact H; simpl; intros a;
    unfold is_connect_activity; by destruct a.
Qed.

Lemma step_live st e st' out : step st e = Some (st', out) → live st' ≤ live st.
Proof.
  intros [(-> & n & Hn & -> & ->)|(i & s & s' & Ht & Hi & Hh & ->)]%step_inv;
    unfold live; simpl.
  - rewrite sum_list_with_app, Hn. simpl. unfold live_sup. simpl. lia.
  - pose proof (sum_list_with_insert live_sup _ _ _ s' Hi).
    pose proof (handle_live _ _ _ _ _ Hh). lia.
Qed.

Lemma execute_live evs st tr : execute evs = Some (st, tr) → live st ≤ 1.
Proof.
  revert evs st tr. apply execute_ind.
  - unfold live, live_sup. simpl. lia.
  - intros evs st tr e st' out _ IH Hs. apply step_live in Hs. lia.
Qed.

Lemma step_quiescent st e st' out :
  quiescent st → step st e = Some (st', out) →
  quiescent st' ∧ count is_connect_activity out = 0.
Proof.
  intros [Hticks Hidle]
    [(-> & n & Hn & -> & ->)|(i & s & s' & Ht & Hi & Hh & ->)]%step_inv.
  - congruence.
  - destruct (handle_idle _ _ _ _ _ (proj1 (Forall_lookup _ _) Hidle _ _ Hi) Hh)
      as [Hs' Hout].
    split; [|done]. destruct (count_activity_zero _ Hout) as (_ & _ & Hn).
    split; simpl; [lia|]. by apply Forall_insert.
Qed.

Lemma run_quiescent st evs st' tr :
  quiescent st → run st evs = Some (st', tr) →
  quiescent st' ∧ count is_connect_activity tr = 0.
Proof.
  revert st tr. induction evs as [|e evs IH]; intros st tr Hq.
  - by intros [= <- <-].
  - intros (st1 & out & tr' & Hs & Hr & ->)%run_cons_inv.
    destruct (step_quiescent _ _ _ _ Hq Hs) as [Hq1 Hout].
    destruct (IH _ _ Hq1 Hr) as [Hq' Htr].
    split; [done|]. rewrite count_app. lia.
Qed.

(** While one invocation is live nothing else is. *)
Lemma live_exclusive st i s :
  live st ≤ 1 → calls st !! i = Some s → 1 ≤ live_sup s →
  ticks st = 0 ∧ live_sup s = 1
  ∧ ∀ j s', j ≠ i → calls st !! j = Some s' → live_sup s' = 0.
Proof.
  unfold live. intros Hl Hi Hs.
  pose proof (sum_list_with_in s live_sup _ (list_elem_of_lookup_2 _ _ _ Hi)).
  repeat split; [lia..|]. intros j s' Hne Hj.
  pose proof (sum_list_with_lookup2 live_sup _ _ _ _ _ Hne Hj Hi). lia.
Qed.

Lemma live_sup_zero_idle s : live_sup s = 0 → idle s = true.
Proof. unfold live_sup, idle. destruct (looping s), (is_open s); simpl; done || lia. Qed.

Lemma quiescent_insert st i s s' :
  live st ≤ 1 → calls st !! i = Some s → 1 ≤ live_sup s → idle s' = true →
  quiescent (State (<[i := s']> (calls st)) (ticks st)).
Proof.
  intros Hl Hi Hs Hs'. destruct (live_exclusive _ _ _ Hl Hi Hs) as (Ht & _ & Hothers).
  split; [done|]. simpl. apply Forall_lookup. intros j x.
  rewrite list_lookup_insert_Some. intros [(-> & <- & _)|[Hne Hj]]; [done|].
  apply live_sup_zero_idle. eauto.
Qed.

Lemma step_in_flight st e st' out :
  step st e = Some (st', out) →
  count is_connectCallback out + in_flight st'
  = count is_amqp_connect out + in_flight st.
Proof.
  intros [(-> & n & Hn & -> & ->)|(i & s & s' & Ht & Hi & Hh & ->)]%step_inv;
    unfold in_flight; simpl.
  - rewrite sum_list_with_app. simpl. unfold count. simpl. lia.
  - pose proof (sum_list_with_insert in_flight_sup _ _ _ s' Hi).
    pose proof (handle_in_flight _ _ _ _ _ Hh). lia.
Qed.

(** Every attempt that has called back has reached [connectCallback]. *)
Lemma execute_in_flight evs st tr :
  execute evs = Some (st, tr) →
  count is_connectCallback tr + in_flight st = count is_amqp_connect tr.
Proof.
  revert evs st tr. apply execute_ind.
  - done.
  - intros evs st tr e st' out _ IH Hs. apply step_in_flight in Hs.
    rewrite !count_app. lia.
Qed.

Lemma quiescent_in_flight st : quiescent st → in_flight st = 0.
Proof.
  intros [_ H]. unfold in_flight. induction H as [|s l Hs _ IH]; [done|].
  simpl. rewrite IH. unfold idle, looping in Hs. unfold in_flight_sup.
  by destruct (spec s).
Qed.

(** ** The captured variables follow the history *)

Lemma target_is_cl_close e i0 i :
  target_of e = Some i0 →
  is_cl_close i e = bool_decide (i0 = i) && (if e is cl_close _ _ then true else false).
Proof. destruct e; simpl; intros [= ->]; by rewrite ?andb_false_r, ?andb_true_r. Qed.

Lemma target_is_ev_con_close e i0 i :
  target_of e = Some i0 →
  is_ev_con_close i e
  = bool_decide (i0 = i) && (if e is ev_con_close _ then true else false).
Proof. destruct e; simpl; intros [= ->]; by rewrite ?andb_false_r, ?andb_true_r. Qed.

Lemma target_is_cl_ch_close e i0 i j :
  target_of e = Some i0 →
  is_cl_ch_close i j e
  = bool_decide (i0 = i)
    && (if e is cl_ch_close _ j' _ then bool_decide (j' = j) else false).
Proof. destruct e; simpl; intros [= ->]; by rewrite ?andb_false_r, ?andb_true_r. Qed.

Lemma flags_snoc_connect (l : list supervisor) i :
  let l' := l ++ [Supervisor None calling None] in
  marker_cleared (l' !! i) = marker_cleared (l !! i)
  ∧ closed_flag (l' !! i) = closed_flag (l !! i)
  ∧ ∀ j, client_flag (l' !! i) j = client_flag (l !! i) j.
Proof.
  simpl. rewrite lookup_app. destruct (l !! i) as [s|]; [done|].
  by destruct (i - length l) as [|[|n]].
Qed.

Lemma existsb_snoc {A} (p : A → bool) l x :
  existsb p (l ++ [x]) = existsb p l || p x.
Proof. rewrite existsb_app. simpl. by rewrite orb_false_r. Qed.

Lemma step_agrees evs st e st' out :
  agrees evs st → step st e = Some (st', out) → agrees (evs ++ [e]) st'.
Proof.
  intros [Hover Hflags]
    [(-> & n & Hn & -> & ->)|(i0 & s & s' & Ht & Hi & Hh & ->)]%step_inv;
    unfold agrees, closed_by_client, close_emitted, ch_closed_by_client in *;
    cbn [calls ticks]; setoid_rewrite existsb_snoc.
  - split.
    + apply Forall_app. split; [done|]. apply Forall_singleton. by intros ?.
    + intros i. destruct (flags_snoc_connect (calls st) i) as (Hm & Hc & Hj).
      destruct (Hflags i) as (Hm' & Hc' & Hj').
      cbn [connect fst]. rewrite Hm, Hc, Hm', Hc'. cbn [is_cl_close is_ev_con_close].
      rewrite !orb_false_r. repeat split; [done..|]. intros j.
      rewrite Hj, Hj'. cbn [is_cl_ch_close]. by rewrite orb_false_r.
  - pose proof (proj1 (Forall_lookup _ _) Hover _ _ Hi) as Hs. split.
    + apply Forall_insert; [done|]. by eapply handle_loop_over.
    + intros i.
      rewrite (target_is_cl_close _ _ i Ht), (target_is_ev_con_close _ _ i Ht).
      destruct (Hflags i) as (Hm & Hc & Hj).
      destruct (decide (i0 = i)) as [->|Hne].
      * rewrite list_lookup_insert_eq by (by eapply lookup_lt_Some).
        rewrite !bool_decide_eq_true_2, !andb_true_l by done.
        rewrite (handle_marker_cleared _ _ _ _ _ Hs Hh),
          (handle_closed_flag _ _ _ _ _ Hs Hh), <- Hm, <- Hc, Hi.
        repeat split; [done..|]. intros j.
        rewrite (target_is_cl_ch_close _ _ i j Ht), bool_decide_eq_true_2 by done.
        by rewrite andb_true_l, (handle_client_flag _ _ _ _ _ j Hs Hh), <- Hj, Hi.
      * rewrite list_lookup_insert_ne by done.
        rewrite !bool_decide_eq_false_2, !andb_false_l, !orb_false_r by done.
        repeat split; [done..|]. intros j.
        rewrite (target_is_cl_ch_close _ _ i j Ht), bool_decide_eq_false_2 by done.
        by rewrite andb_false_l, orb_false_r.
Qed.

Lemma execute_agrees evs st tr : execute evs = Some (st, tr) → agrees evs st.
Proof.
  revert evs st tr. apply execute_ind.
  - split; [apply Forall_singleton; by intros ?|]. by intros [|[|i]].
  - intros evs st tr e st' out _ IH Hs. by eapply step_agrees.
Qed.

Lemma closed_by_client_true i evs :
  closed_by_client i evs = true ↔ ∃ cb, cl_close i cb ∈ evs.
Proof.
  unfold closed_by_client. rewrite existsb_exists. split.
  - intros (e & Hin%list_elem_of_In & He). destruct e; try done.
    apply bool_decide_eq_true in He as ->. eauto.
  - intros [cb Hin%list_elem_of_In]. eexists. split; [done|].
    simpl. by apply bool_decide_eq_true.
Qed.

Lemma close_emitted_true i evs :
  close_emitted i evs = true ↔ ev_con_close i ∈ evs.
Proof.
  unfold close_emitted. rewrite existsb_exists. split.
  - intros (e & Hin%list_elem_of_In & He). destruct e; try done.
    by apply bool_decide_eq_true in He as ->.
  - intros Hin%list_elem_of_In. eexists. split; [done|].
    simpl. by apply bool_decide_eq_true.
Qed.

Lemma ch_closed_by_client_true i j evs :
  ch_closed_by_client i j evs = true ↔ ∃ cb, cl_ch_close i j cb ∈ evs.
Proof.
  unfold ch_closed_by_client. rewrite existsb_exists. split.
  - intros (e & Hin%list_elem_of_In & He). destruct e; try done.
    apply andb_true_iff in He as [->%bool_decide_eq_true ->%bool_decide_eq_true].
    eauto.
  - intros [cb Hin%list_elem_of_In]. eexists. split; [done|].
    simpl. by rewrite !bool_decide_eq_true_2.
Qed.

(** ** The close listener (C1) *)

Lemma should_reconnect_true active last :
  should_reconnect active last = true ↔
  active ≠ None ∧ ∀ e, last = Some e → isErrorUnrecoverable e = false.
Proof.
  unfold should_reconnect. destruct active as [c|], last as [e|]; simpl.
  - rewrite negb_true_iff. split.
    + intros He. split; [done|]. by intros ? [= <-].
    + intros [_ He]. by apply He.
  - split; [intros _; split; [done|by intros ? [=]]|done].
  - split; [done|by intros [? _]].
  - split; [done|by intros [? _]].
Qed.

Lemma step_con_close_inv st i s k st' out :
  calls st !! i = Some s → established s = Some k →
  step st (ev_con_close i) = Some (st', out) →
  connectionClosed k = false
  ∧ out = (if should_reconnect (activeConnection s) (lastError k)
           then [nextTick_connect url] else [])
  ∧ st' = State (<[i := Supervisor (activeConnection s) (spec s)
                         (Some (Connection (con k) (lastError k) true (channels k)))]>
                   (calls st))
                (ticks st + length out).
Proof.
  intros Hi Hk (s0 & s' & Hi' & Hh & ->)%(step_target_inv _ _ i); [|done].
  rewrite Hi in Hi'. injection Hi' as <-.
  simpl in Hh. rewrite Hk in Hh. simpl in Hh.
  destruct (connectionClosed k); [done|]. injection Hh as <- <-.
  split; [done|]. split; [done|]. f_equal.
  unfold con_on_close. simpl. by destruct (should_reconnect _ _).
Qed.

(** C1: after a connected raw connection emits 'close', a new connect
    attempt is scheduled if and only if the active marker
    ([activeConnection]) was still set when the event fired and the last
    recorded error, if any, is not classified unrecoverable by
    [isErrorUnrecoverable].  Scheduling is one [process.nextTick(connect,
    ...)] task, and running that task starts an attempt. *)
Theorem close_event_reconnects_iff st i s k st' out :
  calls st !! i = Some s → established s = Some k →
  step st (ev_con_close i) = Some (st', out) →
  (nextTick_connect url ∈ out ↔
     activeConnection s ≠ None
     ∧ ∀ e, lastError k = Some e → isErrorUnrecoverable e = false)
  ∧ (out = [nextTick_connect url] ∨ out = [])
  ∧ ticks st' = ticks st + length out
  ∧ (nextTick_connect url ∈ out →
     ∃ st'', step st' ev_tick = Some (st'', [amqp_connect url])).
Proof.
  intros Hi Hk Hs.
  destruct (step_con_close_inv _ _ _ _ _ _ Hi Hk Hs) as (_ & Hout & ->).
  rewrite <- should_reconnect_true.
  destruct (should_reconnect _ _); subst out; simpl.
  - split; [split; [done|intros _; apply list_elem_of_here]|].
    split; [by left|]. split; [done|]. intros _.
    unfold step. simpl. replace (ticks st + 1) with (S (ticks st)) by lia. eauto.
  - split; [split; [by intros ?%elem_of_nil|done]|].
    split; [by right|]. split; [done|]. by intros ?%elem_of_nil.
Qed.

(** ** The retry loop (C2, C3) *)

Lemma step_connect_failed st i s e :
  calls st !! i = Some s → spec s = calling →
  step st (ev_connected i (inl e)) =
  Some (State (<[i := Supervisor (activeConnection s)
                        (if isErrorUnrecoverable e then completed else backing_off)
                        (established s)]> (calls st)) (ticks st),
        connectCallback (Some e) None
          :: (if isErrorUnrecoverable e then [backoff_callback] else [])).
Proof.
  intros Hi Hs. unfold step. simpl. rewrite Hi. simpl. rewrite Hs. simpl.
  destruct (isErrorUnrecoverable e); simpl; by rewrite Nat.add_0_r.
Qed.

Lemma step_connect_succeeded st i s c :
  calls st !! i = Some s → spec s = calling →
  step st (ev_connected i (inr c)) =
  Some (State (<[i := Supervisor (Some c) completed
                        (Some (Connection c None false []))]> (calls st)) (ticks st),
        [connectCallback None (Some i); backoff_callback]).
Proof.
  intros Hi Hs. unfold step. simpl. rewrite Hi. simpl. rewrite Hs. simpl.
  by rewrite Nat.add_0_r.
Qed.

Lemma step_backoff_ready st i s :
  calls st !! i = Some s → spec s = backing_off →
  step st (ev_backoff_ready i) =
  Some (State (<[i := Supervisor (activeConnection s) calling (established s)]>
                 (calls st)) (ticks st),
        [amqp_connect url]).
Proof.
  intros Hi Hs. unfold step. simpl. rewrite Hi. simpl. rewrite Hs. simpl.
  by rewrite Nat.add_0_r.
Qed.

Lemma step_connected_inv st i res st' out :
  step st (ev_connected i res) = Some (st', out) →
  ∃ s, calls st !! i = Some s ∧ spec s = calling.
Proof.
  intros (s & s' & Hi & Hh & _)%(step_target_inv _ _ i); [|done].
  exists s. split; [done|]. simpl in Hh. by destruct (spec s).
Qed.

(** C2: for every sequence of [n] consecutive failed connect attempts whose
    errors the classifier does not call unrecoverable, followed by one
    successful attempt, [connectCallback] is invoked [n] times with (that
    attempt's error, no connection) and then once with (no error, the
    wrapper); and on every attempt, failed or successful, exactly one
    [connectCallback] invocation is the first thing that happens.  This
    holds for every [n], in particular for [n >= 1]. *)
Theorem connectCallback_once_per_attempt st i s errs c :
  calls st !! i = Some s → spec s = calling →
  Forall (λ e, isErrorUnrecoverable e = false) errs →
  (∃ st' tr,
     run st (attempts i errs c) = Some (st', tr)
     ∧ List.filter is_connectCallback tr
       = map (λ e, connectCallback (Some e) None) errs
           ++ [connectCallback None (Some i)]
     ∧ count is_amqp_connect tr = length errs)
  ∧ (∀ st0 res st1 out,
       step st0 (ev_connected i res) = Some (st1, out) →
       count is_connectCallback out = 1
       ∧ head out = Some (match res with
                          | inl e => connectCallback (Some e) None
                          | inr _ => connectCallback None (Some i)
                          end)).
Proof.
  intros Hi Hs Herrs. split.
  - revert st s Hi Hs. induction Herrs as [|e errs He _ IH]; intros st s Hi Hs.
    + unfold attempts. simpl. rewrite (step_connect_succeeded _ _ _ _ Hi Hs).
      simpl. eauto.
    + pose proof (step_connect_failed _ _ _ e Hi Hs) as H1. rewrite He in H1.
      set (st1 := State (<[i := Supervisor (activeConnection s) backing_off
                                   (established s)]> (calls st)) (ticks st)) in *.
      assert (calls st1 !! i = Some (Supervisor (activeConnection s) backing_off
                                       (established s))) as Hi1.
      { simpl. apply list_lookup_insert_eq. by eapply lookup_lt_Some. }
      pose proof (step_backoff_ready _ _ _ Hi1 eq_refl) as H2. simpl in H2.
      set (st2 := State _ _) in H2.
      assert (calls st2 !! i = Some (Supervisor (activeConnection s) calling
                                       (established s))) as Hi2.
      { simpl. apply list_lookup_insert_eq. rewrite length_insert.
        by eapply lookup_lt_Some. }
      destruct (IH st2 _ Hi2 eq_refl) as (st' & tr & Hr & Hcb & Hn).
      exists st', (connectCallback (Some e) None :: amqp_connect url :: tr).
      split; [|split].
      * unfold attempts in *. simpl. rewrite H1. simpl. rewrite H2. simpl.
        by rewrite Hr.
      * simpl. by rewrite Hcb.
      * unfold count in *. simpl. by rewrite Hn.
  - intros st0 res st1 out Hstep.
    destruct (step_connected_inv _ _ _ _ _ Hstep) as (s0 & Hi0 & Hs0).
    destruct res as [e|c'].
    + rewrite (step_connect_failed _ _ _ e Hi0 Hs0) in Hstep.
      injection Hstep as _ <-. by destruct (isErrorUnrecoverable e).
    + rewrite (step_connect_succeeded _ _ _ c' Hi0 Hs0) in Hstep.
      by injection Hstep as _ <-.
Qed.

(** C3: if the classifier returns true for the error of connect attempt
    [k] (the [k]-th [amqp.connect] call of the execution), then the retry loop
    stops and the completion callback given to [backoff.call] is invoked;
    [connectCallback] has then been called exactly [k] times; and whatever
    happens afterwards, no further attempt is started, no reconnect is
    scheduled and [connectCallback] is not called again. *)
Theorem unrecoverable_error_gives_up evs st tr i e st1 out :
  execute evs = Some (st, tr) →
  step st (ev_connected i (inl e)) = Some (st1, out) →
  isErrorUnrecoverable e = true →
  out = [connectCallback (Some e) None; backoff_callback]
  ∧ (∃ s1, calls st1 !! i = Some s1 ∧ spec s1 = completed)
  ∧ count is_connectCallback (tr ++ out) = count is_amqp_connect (tr ++ out)
  ∧ ∀ evs' st2 tr2,
      run st1 evs' = Some (st2, tr2) →
      count is_amqp_connect tr2 = 0 ∧ count is_connectCallback tr2 = 0
      ∧ count is_nextTick tr2 = 0 ∧ ticks st2 = 0.
Proof.
  intros Hex Hstep He.
  destruct (step_connected_inv _ _ _ _ _ Hstep) as (s & Hi & Hs).
  pose proof (execute_snoc _ _ _ _ _ _ Hex Hstep) as Hex1.
  rewrite (step_connect_failed _ _ _ e Hi Hs), He in Hstep.
  injection Hstep as <- <-.
  assert (1 ≤ live_sup s) as Hlive.
  { unfold live_sup, looping. rewrite Hs. lia. }
  pose proof (execute_live _ _ _ Hex) as Hl.
  destruct (live_exclusive _ _ _ Hl Hi Hlive) as (_ & Hone & _).
  set (s1 := Supervisor (activeConnection s) completed (established s)) in *.
  assert (idle s1 = true) as Hidle.
  { unfold live_sup, looping in Hone. rewrite Hs in Hone.
    unfold idle, looping, is_open in *. simpl.
    destruct (established s) as [k|]; [|done].
    destruct (connectionClosed k); [done|simpl in Hone; lia]. }
  pose proof (quiescent_insert _ _ _ _ Hl Hi Hlive Hidle) as Hq.
  split; [done|]. split.
  { exists s1. split; [|done]. simpl. apply list_lookup_insert_eq.
    by eapply lookup_lt_Some. }
  split.
  { pose proof (execute_in_flight _ _ _ Hex1) as Hfl.
    rewrite (quiescent_in_flight _ Hq) in Hfl. lia. }
  intros evs' st2 tr2 Hr.
  destruct (run_quiescent _ _ _ _ Hq Hr) as [[Ht _] Hact].
  destruct (count_activity_zero _ Hact) as (? & ? & ?). done.
Qed.

(** ** Deliberate close and forced rotation (C4, C5) *)

Lemma step_con_close_open st i st' out :
  step st (ev_con_close i) = Some (st', out) →
  ∃ s k, calls st !! i = Some s ∧ established s = Some k
         ∧ connectionClosed k = false.
Proof.
  intros (s & s' & Hi & Hh & _)%(step_target_inv _ _ i); [|done].
  simpl in Hh. destruct (established s) as [k|] eqn:Hk; [|done]. simpl in Hh.
  destruct (connectionClosed k) eqn:Hc; [done|]. eauto.
Qed.

(** A 'close' event still to come has not been emitted yet. *)
Lemma not_yet_closed evs0 st tr0 evs st' tr i :
  execute evs0 = Some (st, tr0) → run st evs = Some (st', tr) →
  ev_con_close i ∈ evs → close_emitted i evs0 = false.
Proof.
  intros Hex Hr (a & b & ->)%list_elem_of_split.
  apply run_app_inv in Hr as (sta & tra & trb & Hra & Hrb & _).
  apply run_cons_inv in Hrb as (stb & out & _ & Hs & _).
  destruct (step_con_close_open _ _ _ _ Hs) as (s & k & Hi & Hk & Hc).
  pose proof (execute_agrees _ _ _ (execute_app _ _ _ _ _ _ Hex Hra)) as [_ Hag].
  destruct (Hag i) as (_ & Hcl & _). rewrite Hi in Hcl.
  unfold closed_flag, closed in Hcl. rewrite Hk in Hcl. simpl in Hcl.
  rewrite Hc in Hcl. unfold close_emitted in *. rewrite existsb_app in Hcl.
  symmetry in Hcl. by apply orb_false_elim in Hcl as [? _].
Qed.

Lemma open_of_history evs st tr i s k :
  execute evs = Some (st, tr) → calls st !! i = Some s → established s = Some k →
  close_emitted i evs = false → is_open s = true ∧ spec s = completed.
Proof.
  intros Hex Hi Hk Hcl.
  destruct (execute_agrees _ _ _ Hex) as [Hover Hag].
  destruct (Hag i) as (_ & Hc & _). rewrite Hi, Hcl in Hc.
  unfold closed_flag, closed in Hc. rewrite Hk in Hc. simpl in Hc.
  split; [unfold is_open; by rewrite Hk, Hc|].
  apply (proj1 (Forall_lookup _ _) Hover _ _ Hi). by rewrite Hk.
Qed.

Lemma step_cl_close_inv st i cb st' out :
  step st (cl_close i cb) = Some (st', out) →
  ∃ s k, calls st !! i = Some s ∧ established s = Some k
         ∧ out = [con_close (con k) cb]
         ∧ st' = State (<[i := Supervisor None (spec s) (established s)]> (calls st))
                       (ticks st).
Proof.
  intros (s & s' & Hi & Hh & ->)%(step_target_inv _ _ i); [|done].
  simpl in Hh. destruct (established s) as [k|] eqn:Hk; [|done].
  injection Hh as <- <-. exists s, k. rewrite Hk. simpl.
  by rewrite Nat.add_0_r.
Qed.

(** C4: the decorated connection's [close(cb)] clears the active marker and
    delegates to the raw [con.close(cb)]; the marker is clear by the time any
    later event is handled.  So in every execution in which the client calls
    the wrapper's [close] and the raw 'close' event fires afterwards, no
    connect attempt is started, no reconnect is scheduled and
    [connectCallback] is not invoked, from the call of [close] on. *)
Theorem close_then_close_event_never_reconnects evs0 st tr0 i cb evs st' tr :
  execute evs0 = Some (st, tr0) →
  run st (cl_close i cb :: evs) = Some (st', tr) →
  ev_con_close i ∈ evs →
  (∃ st1 s1 k,
     step st (cl_close i cb) = Some (st1, [con_close (con k) cb])
     ∧ calls st1 !! i = Some s1 ∧ activeConnection s1 = None
     ∧ established s1 = Some k)
  ∧ count is_amqp_connect tr = 0 ∧ count is_nextTick tr = 0
  ∧ count is_connectCallback tr = 0 ∧ ticks st' = 0.
Proof.
  intros Hex Hr Hin.
  apply run_cons_inv in Hr as (st1 & out1 & tr' & Hs & Hr' & ->).
  pose proof (execute_snoc _ _ _ _ _ _ Hex Hs) as Hex1.
  pose proof (not_yet_closed _ _ _ _ _ _ _ Hex1 Hr' Hin) as Hcl.
  unfold close_emitted in Hcl. rewrite existsb_snoc in Hcl.
  apply orb_false_elim in Hcl as [Hcl _].
  destruct (step_cl_close_inv _ _ _ _ _ Hs) as (s & k & Hi & Hk & -> & ->).
  destruct (open_of_history _ _ _ _ _ _ Hex Hi Hk Hcl) as [Hopen Hspec].
  set (s1 := Supervisor None (spec s) (established s)) in *.
  assert (calls st !! i = Some s ∧ i < length (calls st)) as [_ Hlen].
  { split; [done|]. by eapply lookup_lt_Some. }
  split.
  { exists (State (<[i := s1]> (calls st)) (ticks st)), s1, k.
    split; [exact Hs|]. split; [simpl; by apply list_lookup_insert_eq|].
    by split. }
  assert (1 ≤ live_sup s) as Hlive by (unfold live_sup; rewrite Hopen; lia).
  assert (idle s1 = true) as Hidle.
  { unfold idle, looping, s1. simpl. rewrite Hspec. simpl. apply orb_true_r. }
  pose proof (quiescent_insert _ _ _ _ (execute_live _ _ _ Hex) Hi Hlive Hidle) as Hq.
  destruct (run_quiescent _ _ _ _ Hq Hr') as [[Ht _] Hact].
  destruct (count_activity_zero _ Hact) as (? & ? & ?).
  rewrite !count_app. unfold count at 1 3 5. simpl. done.
Qed.

Lemma marker_of_history evs st tr i s k :
  execute evs = Some (st, tr) → calls st !! i = Some s → established s = Some k →
  (activeConnection s = None ↔ ∃ cb, cl_close i cb ∈ evs).
Proof.
  intros Hex Hi Hk. destruct (execute_agrees _ _ _ Hex) as [_ Hag].
  destruct (Hag i) as (Hm & _). rewrite Hi in Hm. simpl in Hm. rewrite Hk in Hm.
  rewrite <- closed_by_client_true, <- Hm. by rewrite bool_decide_eq_true.
Qed.

(** C5, amended: the decorated connection's [closeAndReconnect(cb)]
    delegates to the raw [con.close(cb)] and changes no captured variable, the
    active marker included.  On a wrapper whose [close] the client has not
    called (the marker is then still set), and provided the last recorded
    error, if any, is not classified unrecoverable, the 'close' event that
    follows schedules a reconnect: exactly one [nextTick] task is then queued,
    and running it starts exactly one connect attempt.  (Without the
    condition on [close] the statement fails, see
    [closeAndReconnect_after_close_counterexample].) *)
Theorem closeAndReconnect_reconnects_once evs st tr i cb st1 out1 st2 out2 s k :
  execute evs = Some (st, tr) →
  calls st !! i = Some s → established s = Some k →
  (∀ cb', cl_close i cb' ∉ evs) →
  (∀ e, lastError k = Some e → isErrorUnrecoverable e = false) →
  step st (cl_closeAndReconnect i cb) = Some (st1, out1) →
  step st1 (ev_con_close i) = Some (st2, out2) →
  out1 = [con_close (con k) cb] ∧ st1 = st
  ∧ activeConnection s ≠ None
  ∧ out2 = [nextTick_connect url] ∧ ticks st2 = 1
  ∧ ∃ st3, step st2 ev_tick = Some (st3, [amqp_connect url]) ∧ ticks st3 = 0.
Proof.
  intros Hex Hi Hk Hnoclose Herr Hs1 Hs2.
  apply (step_target_inv _ _ i) in Hs1 as (s0 & s' & Hi' & Hh & ->); [|done].
  rewrite Hi in Hi'. injection Hi' as <-.
  simpl in Hh. rewrite Hk in Hh. injection Hh as <- <-.
  assert (State (<[i := s]> (calls st))
            (ticks st + count is_nextTick [con_close (con k) cb]) = st) as Hst.
  { destruct st as [l t]. simpl in *. rewrite (list_insert_id _ _ _ Hi).
    f_equal. unfold count. simpl. lia. }
  rewrite Hst in *.
  assert (activeConnection s ≠ None) as Hactive.
  { rewrite (marker_of_history _ _ _ _ _ _ Hex Hi Hk). intros [cb' Hin].
    by apply (Hnoclose cb'). }
  destruct (step_con_close_inv _ _ _ _ _ _ Hi Hk Hs2) as (Hopen & Hout & ->).
  rewrite (proj2 (should_reconnect_true _ _) (conj Hactive Herr)) in Hout.
  assert (1 ≤ live_sup s) as Hlive.
  { unfold live_sup, is_open. rewrite Hk, Hopen. simpl. lia. }
  destruct (live_exclusive _ _ _ (execute_live _ _ _ Hex) Hi Hlive) as (Ht & _).
  subst out2. simpl. rewrite Ht. repeat split; try done.
  eexists. split; [unfold step; simpl; reflexivity|done].
Qed.

(** ** The [closed] latch (C6) *)

Lemma wrapper_closed_flag st i b :
  wrapper_closed st i = Some b → closed_flag (calls st !! i) = b.
Proof.
  unfold wrapper_closed, closed_flag. destruct (calls st !! i) as [s|]; [|done].
  simpl. by intros ->.
Qed.

Lemma closed_flag_true st i :
  closed_flag (calls st !! i) = true → wrapper_closed st i = Some true.
Proof.
  unfold wrapper_closed, closed_flag. destruct (calls st !! i) as [s|]; [|done].
  simpl. destruct (closed s) as [[]|]; done.
Qed.

(** C6: the decorated connection's [closed] reads false when the wrapper is
    delivered by a successful attempt; at every later moment it reads true
    exactly if the raw connection has emitted 'close'.  So it is false until
    the first 'close' event, that event makes it true, and it never reverts
    to false afterwards. *)
Theorem closed_latches evs st tr i :
  execute evs = Some (st, tr) →
  (∀ c st' out,
     step st (ev_connected i (inr c)) = Some (st', out) →
     connectCallback None (Some i) ∈ out ∧ wrapper_closed st' i = Some false)
  ∧ (∀ b, wrapper_closed st i = Some b → (b = true ↔ ev_con_close i ∈ evs))
  ∧ (∀ st' out,
       wrapper_closed st i = Some false →
       step st (ev_con_close i) = Some (st', out) →
       wrapper_closed st' i = Some true)
  ∧ (∀ evs' st' tr',
       wrapper_closed st i = Some true →
       run st evs' = Some (st', tr') →
       wrapper_closed st' i = Some true).
Proof.
  intros Hex. destruct (execute_agrees _ _ _ Hex) as [_ Hag].
  destruct (Hag i) as (_ & Hc & _).
  split; [|split; [|split]].
  - intros c st' out Hs.
    destruct (step_connected_inv _ _ _ _ _ Hs) as (s & Hi & Hsp).
    rewrite (step_connect_succeeded _ _ _ c Hi Hsp) in Hs.
    injection Hs as <- <-. split; [apply list_elem_of_here|].
    unfold wrapper_closed. simpl.
    rewrite list_lookup_insert_eq by (by eapply lookup_lt_Some). done.
  - intros b Hb. rewrite <- close_emitted_true, <- Hc.
    by rewrite (wrapper_closed_flag _ _ _ Hb).
  - intros st' out _ Hs.
    destruct (step_con_close_open _ _ _ _ Hs) as (s & k & Hi & Hk & _).
    destruct (step_con_close_inv _ _ _ _ _ _ Hi Hk Hs) as (_ & _ & ->).
    unfold wrapper_closed. simpl.
    rewrite list_lookup_insert_eq by (by eapply lookup_lt_Some). done.
  - intros evs' st' tr' Hb Hr.
    destruct (execute_agrees _ _ _ (execute_app _ _ _ _ _ _ Hex Hr)) as [_ Hag'].
    destruct (Hag' i) as (_ & Hc' & _). apply closed_flag_true.
    rewrite Hc'. unfold close_emitted in *. rewrite existsb_app, <- Hc.
    by rewrite (wrapper_closed_flag _ _ _ Hb).
Qed.

(** ** Channels (C7, C8) *)

Lemma step_ch_close_inv st i j raised st' out :
  step st (ev_ch_close i j raised) = Some (st', out) →
  ∃ s k c, calls st !! i = Some s ∧ established s = Some k
           ∧ channels k !! j = Some c
           ∧ out = if channelClosedByClient c then []
                   else rethrow (closeConnection k raised).
Proof.
  intros (s & s' & Hi & Hh & _)%(step_target_inv _ _ i); [|done].
  simpl in Hh. destruct (established s) as [k|] eqn:Hk; [|done]. simpl in Hh.
  unfold ch_on_close in Hh. destruct (channels k !! j) as [c|] eqn:Hj; [|done].
  simpl in Hh. injection Hh as _ <-. eauto 8.
Qed.

Lemma rethrow_closeConnection k raised :
  rethrow (closeConnection k raised)
  = con_close (con k) None
      :: match raised with
         | Some e => if String.eqb (name e) "IllegalOperationError" then []
                     else [uncaught e]
         | None => []
         end.
Proof.
  unfold rethrow, closeConnection. simpl. destruct raised as [e|]; [|done].
  by destruct (String.eqb (name e) "IllegalOperationError").
Qed.

Lemma step_cl_ch_close_inv st i j cb st' out :
  step st (cl_ch_close i j cb) = Some (st', out) →
  ∃ s k c, calls st !! i = Some s ∧ established s = Some k
           ∧ channels k !! j = Some c
           ∧ out = [target_close (target c) cb]
           ∧ calls st' !! i
             = Some (Supervisor (activeConnection s) (spec s)
                       (Some (Connection (con k) (lastError k) (connectionClosed k)
                                (<[j := Channel (target c) true (channelClosed c)]>
                                   (channels k))))).
Proof.
  intros (s & s' & Hi & Hh & ->)%(step_target_inv _ _ i); [|done].
  simpl in Hh. destruct (established s) as [k|] eqn:Hk; [|done]. simpl in Hh.
  unfold channel_close in Hh. destruct (channels k !! j) as [c|] eqn:Hj; [|done].
  simpl in Hh. injection Hh as <- <-. exists s, k, c.
  repeat split; try done. simpl. apply list_lookup_insert_eq.
  by eapply lookup_lt_Some.
Qed.

(** C7: the channel proxy's [close(cb)] sets [channelClosedByClient] and
    delegates to the raw [target.close(cb)]; a channel 'close' event that
    comes after such a call does not close the parent connection, while a
    channel 'close' event with no prior call of the proxy's [close] calls the
    parent's raw [con.close()] exactly once, as the first thing it does. *)
Theorem channel_close_cascade evs st tr i j raised st' out :
  execute evs = Some (st, tr) →
  step st (ev_ch_close i j raised) = Some (st', out) →
  ((∃ cb, cl_ch_close i j cb ∈ evs) → out = [])
  ∧ ((∀ cb, cl_ch_close i j cb ∉ evs) →
     count is_con_close out = 1
     ∧ ∃ s k, calls st !! i = Some s ∧ established s = Some k
              ∧ head out = Some (con_close (con k) None))
  ∧ (∀ st0 cb st1 out1,
       step st0 (cl_ch_close i j cb) = Some (st1, out1) →
       (∃ t, out1 = [target_close t cb])
       ∧ ∃ s1 k1 c1, calls st1 !! i = Some s1 ∧ established s1 = Some k1
                     ∧ channels k1 !! j = Some c1
                     ∧ channelClosedByClient c1 = true).
Proof.
  intros Hex Hs.
  destruct (step_ch_close_inv _ _ _ _ _ _ Hs) as (s & k & c & Hi & Hk & Hj & ->).
  destruct (execute_agrees _ _ _ Hex) as [_ Hag].
  destruct (Hag i) as (_ & _ & Hfl). specialize (Hfl j).
  rewrite Hi in Hfl. simpl in Hfl. rewrite Hk, Hj in Hfl. simpl in Hfl.
  split; [|split].
  - intros Hcalled%ch_closed_by_client_true. by rewrite Hfl, Hcalled.
  - intros Hnot. assert (ch_closed_by_client i j evs = false) as Hf.
    { apply not_true_is_false. rewrite ch_closed_by_client_true.
      intros [cb Hin]. by apply (Hnot cb). }
    rewrite Hfl, Hf, rethrow_closeConnection. split.
    + unfold count. simpl. destruct raised as [e|]; [|done].
      by destruct (String.eqb _ _).
    + eauto.
  - intros st0 cb st1 out1 Hs1.
    destruct (step_cl_ch_close_inv _ _ _ _ _ _ Hs1)
      as (s0 & k0 & c0 & Hi0 & Hk0 & Hj0 & -> & Hi1).
    split; [eauto|]. do 3 eexists. split; [exact Hi1|]. split; [done|].
    simpl. split; [apply list_lookup_insert_eq; by eapply lookup_lt_Some|done].
Qed.

(** C8: when a channel 'close' event with no prior call of the proxy's
    [close] forces the parent connection closed, an error thrown by that
    [con.close()] is swallowed if and only if its [name] is
    'IllegalOperationError'; any other error leaves the listener.  The same
    holds of [closeConnection] itself. *)
Theorem forced_close_swallows_only_IllegalOperationError st i j e st' out s k c :
  calls st !! i = Some s → established s = Some k →
  channels k !! j = Some c → channelClosedByClient c = false →
  step st (ev_ch_close i j (Some e)) = Some (st', out) →
  (name e = "IllegalOperationError" → out = [con_close (con k) None])
  ∧ (name e ≠ "IllegalOperationError" → out = [con_close (con k) None; uncaught e])
  ∧ ((closeConnection k (Some e)).2 = None ↔ name e = "IllegalOperationError")
  ∧ ((closeConnection k (Some e)).2 = Some e ↔ name e ≠ "IllegalOperationError").
Proof.
  intros Hi Hk Hj Hc Hs.
  destruct (step_ch_close_inv _ _ _ _ _ _ Hs) as (s0 & k0 & c0 & Hi0 & Hk0 & Hj0 & ->).
  rewrite Hi in Hi0. injection Hi0 as <-. rewrite Hk in Hk0. injection Hk0 as <-.
  rewrite Hj in Hj0. injection Hj0 as <-. rewrite Hc, rethrow_closeConnection.
  unfold closeConnection. simpl.
  destruct (String.eqb_spec (name e) "IllegalOperationError") as [Heq|Hne]; simpl.
  - repeat split; done.
  - repeat split; done.
Qed.

(** ** Errors after the connection is up (C9, C10) *)

(** C9: a connection-level 'error' event on an established raw connection
    records the error as [lastError] and invokes [onError] with the message
    "Connection failed (...)", and does nothing else: the active marker, the
    retry loop, [connectionClosed], the channels, the other invocations and
    the queue of scheduled reconnects are unchanged, and no raw [close] is
    called. *)
Theorem connection_error_only_records st i err s k st' out :
  calls st !! i = Some s → established s = Some k →
  step st (ev_con_error i err) = Some (st', out) →
  out = [onError ("Connection failed (" +:+ message err +:+ ")")]
  ∧ st' = State (<[i := Supervisor (activeConnection s) (spec s)
                         (Some (Connection (con k) (Some err) (connectionClosed k)
                                  (channels k)))]> (calls st))
                (ticks st)
  ∧ (∃ s' k', calls st' !! i = Some s' ∧ established s' = Some k'
              ∧ lastError k' = Some err
              ∧ activeConnection s' = activeConnection s ∧ spec s' = spec s
              ∧ con k' = con k ∧ connectionClosed k' = connectionClosed k
              ∧ channels k' = channels k)
  ∧ (∀ j, j ≠ i → calls st' !! j = calls st !! j)
  ∧ ticks st' = ticks st
  ∧ count is_con_close out = 0 ∧ count is_nextTick out = 0.
Proof.
  intros Hi Hk (s0 & s' & Hi' & Hh & ->)%(step_target_inv _ _ i); [|done].
  rewrite Hi in Hi'. injection Hi' as <-.
  simpl in Hh. rewrite Hk in Hh. injection Hh as <- <-.
  simpl. rewrite Nat.add_0_r. repeat split; try done.
  - do 2 eexists. split.
    + apply list_lookup_insert_eq. by eapply lookup_lt_Some.
    + done.
  - intros j Hne. by apply list_lookup_insert_ne.
Qed.

(** C10: when the raw [createChannel] (or [createConfirmChannel]) reports an
    error, the error is recorded as [lastError], reported once through
    [onError], the client's channel callback is invoked exactly once with
    that error and no channel, and only then is the raw [con.close()] called.
    If the connection's 'close' event comes next, the reconnect decision
    consults the classifier on this very error: a reconnect is scheduled
    exactly if the active marker is set and the classifier does not call the
    channel-creation error unrecoverable. *)
Theorem channel_creation_failure st i cb err raised s k st' out :
  calls st !! i = Some s → established s = Some k →
  step st (ev_channel i cb (inl err) raised) = Some (st', out) →
  (∃ rest,
     out = onError ("Failed to create a channel (" +:+ message err +:+ ")")
             :: channel_callback cb (Some err) None
             :: con_close (con k) None :: rest
     ∧ (rest = [] ∨ ∃ e, raised = Some e ∧ rest = [uncaught e]))
  ∧ count is_channel_callback out = 1 ∧ count is_onError out = 1
  ∧ count is_con_close out = 1
  ∧ (∃ s' k', calls st' !! i = Some s' ∧ established s' = Some k'
              ∧ lastError k' = Some err
              ∧ activeConnection s' = activeConnection s
              ∧ connectionClosed k' = connectionClosed k)
  ∧ (∀ st'' out',
       step st' (ev_con_close i) = Some (st'', out') →
       (nextTick_connect url ∈ out' ↔
          activeConnection s ≠ None ∧ isErrorUnrecoverable err = false)
       ∧ (out' = [nextTick_connect url] ∨ out' = [])).
Proof.
  intros Hi Hk (s0 & s' & Hi' & Hh & ->)%(step_target_inv _ _ i); [|done].
  rewrite Hi in Hi'. injection Hi' as <-.
  simpl in Hh. rewrite Hk in Hh. injection Hh as <- <-.
  pose proof (lookup_lt_Some _ _ _ Hi) as Hlen.
  set (k' := Connection (con k) (Some err) (connectionClosed k) (channels k)).
  assert (rethrow (closeConnection k' raised)
          = con_close (con k) None
              :: match raised with
                 | Some e => if String.eqb (name e) "IllegalOperationError" then []
                             else [uncaught e]
                 | None => []
                 end) as Hre by exact (rethrow_closeConnection k' raised).
  simpl. fold k'. rewrite Hre.
  split; [|split; [|split; [|split; [|split]]]].
  - eexists. split; [done|]. destruct raised as [e|]; [|by left].
    destruct (String.eqb _ _); [by left|right; eauto].
  - unfold count. simpl. destruct raised as [e|]; [|done]. by destruct (String.eqb _ _).
  - unfold count. simpl. destruct raised as [e|]; [|done]. by destruct (String.eqb _ _).
  - unfold count. simpl. destruct raised as [e|]; [|done]. by destruct (String.eqb _ _).
  - do 2 eexists. split; [by apply list_lookup_insert_eq|]. done.
  - intros st'' out' Hs.
    eapply step_con_close_inv in Hs as (_ & -> & _);
      [|simpl; by apply list_lookup_insert_eq|done].
    simpl. pose proof (should_reconnect_true (activeConnection s) (Some err)) as Hsr.
    destruct (should_reconnect _ _).
    + split; [|by left]. split; [intros _|intros _; apply list_elem_of_here].
      destruct Hsr as [Hsr _]. destruct (Hsr eq_refl) as [? He]. split; [done|].
      by apply He.
    + split; [|by right]. split; [by intros ?%elem_of_nil|].
      intros [Ha He]. destruct Hsr as [_ Hsr]. exfalso.
      assert (false = true) as Hf; [|done]. apply Hsr. split; [done|].
      by intros e [= <-].
Qed.

(** ** One connection at a time *)

(** X1: in an execution started by one [connect] call, at most one raw
    connection is open (obtained and not yet closed) at any time; while one
    is open no reconnect is queued and no retry loop is running. *)
Theorem at_most_one_open_connection evs st tr i s :
  execute evs = Some (st, tr) →
  calls st !! i = Some s → is_open s = true →
  ticks st = 0
  ∧ spec s = completed
  ∧ ∀ j s', j ≠ i → calls st !! j = Some s' →
            is_open s' = false ∧ spec s' = completed.
Proof.
  intros Hex Hi Hopen.
  assert (1 ≤ live_sup s) as Hlive by (unfold live_sup; rewrite Hopen; lia).
  destruct (live_exclusive _ _ _ (execute_live _ _ _ Hex) Hi Hlive)
    as (Ht & Hone & Hothers).
  split; [done|]. split.
  - unfold live_sup, looping in Hone. rewrite Hopen in Hone.
    destruct (spec s); simpl in Hone; done || lia.
  - intros j s' Hne Hj. specialize (Hothers _ _ Hne Hj).
    unfold live_sup, looping in Hothers.
    destruct (spec s'), (is_open s'); simpl in Hothers; done || lia.
Qed.

(** ** Views of the captured variables along an execution *)

(** A view of one invocation that every event updates in a way the event
    alone determines is a fold over the history. *)
Lemma execute_history {A} (view : option supervisor → A)
    (upd : nat → event → A → A) (a0 : A) :
  view None = a0 → view (Some (Supervisor None calling None)) = a0 →
  (∀ i e s s' out,
     target_of e = Some i → loop_over s → handle i e s = Some (s', out) →
     view (Some s') = upd i e (view (Some s))) →
  (∀ i i0 e a, target_of e = Some i0 → i0 ≠ i → upd i e a = a) →
  (∀ i a, upd i ev_tick a = a) →
  ∀ evs st tr, execute evs = Some (st, tr) →
  ∀ i, view (calls st !! i) = foldl (λ a e, upd i e a) a0 evs.
Proof.
  intros Hnone Hnew Hhandle Hother Htick. apply (execute_ind (λ evs st _, ∀ i, _)).
  - intros [|[|i]]; simpl; done.
  - intros evs st tr e st' out Hex IH Hs i. rewrite foldl_app. simpl.
    rewrite <- (IH i). destruct (execute_agrees _ _ _ Hex) as [Hover _].
    apply step_inv in Hs
      as [(-> & n & Hn & -> & ->)|(i0 & s & s' & Ht & Hi & Hh & ->)];
      cbn [calls ticks].
    + rewrite Htick, lookup_app. destruct (calls st !! i) as [s|] eqn:Hi; [done|].
      destruct (i - length (calls st)) as [|[|m]]; simpl; congruence.
    + destruct (decide (i0 = i)) as [->|Hne].
      * rewrite list_lookup_insert_eq by (by eapply lookup_lt_Some).
        rewrite Hi. eapply Hhandle; [done| |done].
        by apply (proj1 (Forall_lookup _ _) Hover _ _ Hi).
      * rewrite list_lookup_insert_ne by done. by rewrite (Hother _ _ _ _ Ht Hne).
Qed.

Lemma foldl_orb_existsb {A} (p : A → bool) (l : list A) (b : bool) :
  foldl (λ a e, a || p e) b l = b || existsb p l.
Proof.
  revert b. induction l as [|x l IH]; intros b; simpl.
  - by rewrite orb_false_r.
  - by rewrite IH, orb_assoc.
Qed.


(** ** The last error, from the history *)

Lemma handle_lastError i e s s' out :
  target_of e = Some i → loop_over s → handle i e s = Some (s', out) →
  lastError_of (Some s')
  = match recorded_error i e with
    | Some err => Some err
    | None => lastError_of (Some s)
    end.
Proof.
  unfold loop_over. intros Ht Hs H.
  destruct s as [a [] [[c le [] chs]|]]; simpl in *;
    try (by specialize (Hs ltac:(done)));
    destruct e; simpl in Ht; try discriminate Ht; injection Ht as ->;
    handle_inv H; simpl; rewrite ?bool_decide_eq_true_2 by done; done.
Qed.

Lemma execute_lastError evs st tr i :
  execute evs = Some (st, tr) → lastError_of (calls st !! i) = last_error i evs.
Proof.
  intros Hex. unfold last_error.
  apply (execute_history lastError_of
           (λ i e a, match recorded_error i e with Some err => Some err | None => a end)
           None) with (tr := tr); try done.
  - intros. by eapply handle_lastError.
  - intros i' i0 e a Ht Hne. destruct e as [| |?|?|?|? ? [?|?] ?|?|?|?|?|?|?];
      simpl in *; try done; injection Ht as ->; by rewrite bool_decide_eq_false_2.
Qed.

(** X6: [lastError] of a connection is the latest error handed to it,
    whatever its origin: a connection 'error' event, a channel 'error' event
    or a failed channel creation each overwrite it, and nothing else changes
    it; it is unset while none has occurred. *)
Theorem lastError_is_latest_error evs st tr i s k :
  execute evs = Some (st, tr) →
  calls st !! i = Some s → established s = Some k →
  lastError k = last_error i evs.
Proof.
  intros Hex Hi Hk. rewrite <- (execute_lastError _ _ _ i Hex), Hi.
  simpl. by rewrite Hk.
Qed.

(** X7: whether a raw connection's 'close' event schedules a reconnect can
    be read off what happened before: it does exactly if the client has not
    called [close] on this connection's wrapper and the latest error handed
    to this connection, if any, is not classified unrecoverable.  Earlier
    errors, and calls of [close] on other wrappers, play no part.  At most
    one reconnect is then queued in all. *)
Theorem reconnect_decided_by_history evs st tr i st' out :
  execute evs = Some (st, tr) →
  step st (ev_con_close i) = Some (st', out) →
  (nextTick_connect url ∈ out ↔
     (∀ cb, cl_close i cb ∉ evs)
     ∧ ∀ e, last_error i evs = Some e → isErrorUnrecoverable e = false)
  ∧ (out = [nextTick_connect url] ∨ out = [])
  ∧ ticks st' = length out.
Proof.
  intros Hex Hs.
  destruct (step_con_close_open _ _ _ _ Hs) as (s & k & Hi & Hk & Hopen).
  destruct (step_con_close_inv _ _ _ _ _ _ Hi Hk Hs) as (_ & Hout & ->).
  assert (1 ≤ live_sup s) as Hlive.
  { unfold live_sup, is_open. rewrite Hk, Hopen. simpl. lia. }
  destruct (live_exclusive _ _ _ (execute_live _ _ _ Hex) Hi Hlive) as (Ht & _).
  pose proof (marker_of_history _ _ _ _ _ _ Hex Hi Hk) as Hmarker.
  pose proof (execute_lastError _ _ _ i Hex) as Hlast.
  rewrite Hi in Hlast. simpl in Hlast. rewrite Hk in Hlast. simpl in Hlast.
  rewrite <- Hlast.
  assert ((∀ cb, cl_close i cb ∉ evs) ↔ activeConnection s ≠ None) as ->.
  { rewrite Hmarker. split.
    - intros Hno [cb Hin]. by apply (Hno cb).
    - intros Hno cb Hin. apply Hno. by exists cb. }
  rewrite <- should_reconnect_true. simpl. rewrite Ht.
  destruct (should_reconnect _ _); subst out; simpl.
  - split; [split; [done|intros _; apply list_elem_of_here]|]. split; [by left|done].
  - split; [split; [by intros ?%elem_of_nil|done]|]. split; [by right|done].
Qed.

(** ** The channel proxy's [closed] *)

Lemma closed_lookup_insert (chs : list channel) j0 j c c' :
  chs !! j0 = Some c →
  default false (channelClosed <$> <[j0 := c']> chs !! j)
  = if decide (j0 = j) then channelClosed c'
    else default false (channelClosed <$> chs !! j).
Proof.
  intros H. destruct (decide (j0 = j)) as [->|Hne].
  - rewrite list_lookup_insert_eq; [done|]. by eapply lookup_lt_Some.
  - by rewrite list_lookup_insert_ne.
Qed.

Lemma closed_lookup_snoc (chs : list channel) j t :
  default false (channelClosed <$> (chs ++ [Channel t false false]) !! j)
  = default false (channelClosed <$> chs !! j).
Proof.
  rewrite lookup_app. destruct (chs !! j) as [c|] eqn:Hj; [done|].
  by destruct (j - length chs) as [|[|n]].
Qed.

Lemma handle_channelClosed i e s s' out j :
  loop_over s → handle i e s = Some (s', out) →
  channelClosed_of j (Some s')
  = channelClosed_of j (Some s)
    || (if e is ev_ch_close _ j' _ then bool_decide (j' = j) else false).
Proof.
  unfold loop_over, channelClosed_of, channel_closed. intros Hs H.
  destruct s as [a [] [[c le [] chs]|]]; simpl in *;
    try (by specialize (Hs ltac:(done)));
    destruct e; handle_inv H; simpl;
    rewrite ?orb_false_r, ?orb_true_r, ?closed_lookup_snoc; try done;
    (erewrite closed_lookup_insert by eassumption); case_decide; simplify_eq/=;
    try done; by match goal with Hl : _ !! _ = Some _ |- _ => rewrite Hl end.
Qed.

Lemma execute_channelClosed evs st tr i j :
  execute evs = Some (st, tr) →
  channelClosed_of j (calls st !! i) = ch_close_emitted i j evs.
Proof.
  intros Hex. unfold ch_close_emitted.
  rewrite <- (orb_false_l (existsb _ _)), <- foldl_orb_existsb.
  apply (execute_history (channelClosed_of j)
           (λ i e a, a || is_ev_ch_close i j e) false) with (tr := tr); try done.
  - intros i' e s s' out Ht Hs Hh.
    rewrite (handle_channelClosed _ _ _ _ _ j Hs Hh). f_equal.
    destruct e; simpl in Ht |- *; try done. injection Ht as ->.
    by rewrite (bool_decide_eq_true_2 (i' = i')).
  - intros i' i0 e a Ht Hne. destruct e; simpl in *; rewrite ?orb_false_r; try done.
    injection Ht as ->. by rewrite (bool_decide_eq_false_2 (i0 = i')), orb_false_r.
  - intros i' a. simpl. by rewrite orb_false_r.
Qed.

Lemma ch_close_emitted_true i j evs :
  ch_close_emitted i j evs = true ↔ ∃ raised, ev_ch_close i j raised ∈ evs.
Proof.
  unfold ch_close_emitted. rewrite existsb_exists. split.
  - intros (e & Hin%list_elem_of_In & He). destruct e; try done.
    apply andb_true_iff in He as [->%bool_decide_eq_true ->%bool_decide_eq_true].
    eauto.
  - intros [raised Hin%list_elem_of_In]. eexists. split; [done|].
    simpl. by rewrite !bool_decide_eq_true_2.
Qed.

(** X2: the [closed] of a channel proxy reads false when the proxy is
    handed to the client's callback, as a new channel of its connection;
    at every later moment it reads true exactly if the raw channel has
    emitted 'close'.  So it latches on the first 'close' event and never
    reverts, whoever closed the channel. *)
Theorem channel_closed_latches evs st tr i j :
  execute evs = Some (st, tr) →
  (∀ cb ch raised st' out,
     step st (ev_channel i cb (inr ch) raised) = Some (st', out) →
     ∃ j', out = [channel_callback cb None (Some (i, j'))]
           ∧ proxy_closed st i j' = None ∧ proxy_closed st' i j' = Some false)
  ∧ (∀ b, proxy_closed st i j = Some b →
          (b = true ↔ ∃ raised, ev_ch_close i j raised ∈ evs)).
Proof.
  intros Hex. split.
  - intros cb ch raised st' out
      (s & s' & Hi & Hh & ->)%(step_target_inv _ _ i); [|done].
    simpl in Hh. destruct (established s) as [k|] eqn:Hk; [|done].
    injection Hh as <- <-. exists (length (channels k)). split; [done|].
    unfold proxy_closed, channel_closed. rewrite Hi. simpl. rewrite Hk. simpl.
    rewrite list_lookup_insert_eq by (by eapply lookup_lt_Some). simpl.
    split.
    + by rewrite (proj2 (lookup_ge_None _ _)).
    + by rewrite list_lookup_middle.
  - intros b Hb. rewrite <- ch_close_emitted_true.
    rewrite <- (execute_channelClosed _ _ _ i j Hex).
    unfold proxy_closed in Hb. unfold channelClosed_of.
    destruct (calls st !! i) as [s|]; [|done]. simpl in *.
    by rewrite Hb.
Qed.

(** ** Reports to [onError] *)

Lemma append_paren_inj (x y : string) : x +:+ ")" = y +:+ ")" → x = y.
Proof.
  revert y. induction x as [|a x IH]; intros [|b y] H; simpl in H.
  - done.
  - injection H as _ H. by destruct y.
  - injection H as _ H. by destruct x.
  - injection H as -> H. f_equal. by apply IH.
Qed.

Lemma report_inj og1 og2 err1 err2 :
  report og1 err1 = report og2 err2 → og1 = og2 ∧ message err1 = message err2.
Proof.
  destruct og1, og2; simpl; intros H; try discriminate H;
    (split; [done|]); apply append_paren_inj; by simplify_eq.
Qed.

(** Every report comes from one of the three sites, with that site's
    message. *)
Lemma step_onError st e st' out msg :
  step st e = Some (st', out) → onError msg ∈ out →
  ∃ og err, origin_of e = Some (og, err) ∧ msg = report og err.
Proof.
  intros [(-> & n & Hn & -> & ->)|(i & s & s' & Ht & Hi & Hh & ->)]%step_inv Hin.
  - apply list_elem_of_singleton in Hin. discriminate Hin.
  - destruct s as [a [] [[c le [] chs]|]]; destruct e; handle_inv Hh;
      repeat (apply elem_of_cons in Hin as [Hin|Hin]; [try discriminate Hin|]);
      try (by apply elem_of_nil in Hin);
      try (injection Hin as ->; by do 2 eexists).
Qed.

(** X3: the message handed to [onError] tells where the error came from.
    Every report is made by the connection's 'error' listener, by a failed
    channel creation or by a channel's 'error' listener, with that site's
    wording around the error's own message; and two reports with the same
    message have the same origin and the same error message. *)
Theorem onError_identifies_origin st1 e1 st1' out1 st2 e2 st2' out2 msg :
  step st1 e1 = Some (st1', out1) → onError msg ∈ out1 →
  step st2 e2 = Some (st2', out2) → onError msg ∈ out2 →
  ∃ og err1 err2,
    origin_of e1 = Some (og, err1) ∧ origin_of e2 = Some (og, err2)
    ∧ msg = report og err1 ∧ message err1 = message err2.
Proof.
  intros Hs1 Hin1 Hs2 Hin2.
  destruct (step_onError _ _ _ _ _ Hs1 Hin1) as (og1 & err1 & Ho1 & Hm1).
  destruct (step_onError _ _ _ _ _ Hs2 Hin2) as (og2 & err2 & Ho2 & Hm2).
  rewrite Hm1 in Hm2. apply report_inj in Hm2 as [<- Hmsg].
  by exists og1, err1, err2.
Qed.

(** ** The default classifier *)




(** ** Callbacks and attempts, counted *)

Lemma sum_list_with_le {A} (f g : A → nat) (l : list A) :
  (∀ x, f x ≤ g x) → sum_list_with f l ≤ sum_list_with g l.
Proof.
  intros Hle. induction l as [|x l IH]; simpl; [done|].
  specialize (Hle x). lia.
Qed.

Lemma in_flight_le_live st : in_flight st ≤ live st.
Proof.
  unfold in_flight, live.
  assert (sum_list_with in_flight_sup (calls st)
          ≤ sum_list_with live_sup (calls st)); [|lia].
  apply sum_list_with_le. intros s.
  unfold in_flight_sup, live_sup, looping. destruct (spec s); simpl; lia.
Qed.

(** X5: at every moment of an execution, [connectCallback] has been invoked
    exactly once for each connect attempt whose [amqp.connect] has called
    back, and at most one attempt is outstanding: the number of invocations
    is the number of [amqp.connect] calls, or one less. *)
Theorem connectCallback_accounting evs st tr :
  execute evs = Some (st, tr) →
  count is_connectCallback tr + in_flight st = count is_amqp_connect tr
  ∧ in_flight st ≤ 1.
Proof.
  intros Hex. split; [by apply (execute_in_flight evs)|].
  pose proof (in_flight_le_live st). pose proof (execute_live _ _ _ Hex). lia.
Qed.

Lemma handle_delivery_other i0 e s s' out i :
  i0 ≠ i → handle i0 e s = Some (s', out) → count (is_delivery i) out = 0.
Proof.
  intros Hne H. destruct s as [a [] [[c le [] chs]|]]; destruct e; handle_inv H;
    unfold count; simpl; rewrite ?bool_decide_eq_false_2 by done; done.
Qed.

Lemma handle_delivery i e s s' out :
  loop_over s → handle i e s = Some (s', out) →
  count (is_delivery i) out + has_wrapper (Some s) = has_wrapper (Some s').
Proof.
  unfold loop_over. intros Hs H.
  destruct s as [a [] [[c le [] chs]|]]; simpl in *;
    try (by specialize (Hs ltac:(done)));
    destruct e; handle_inv H;
    unfold count; simpl; rewrite ?bool_decide_eq_true_2 by done; done.
Qed.

(** X9: each [connect] invocation hands at most one wrapper to
    [connectCallback], and hands it exactly once: the number of
    [connectCallback(null, wrapper)] calls for the wrapper of an invocation is
    one if the invocation has obtained a connection and zero otherwise. *)
Theorem one_wrapper_per_invocation evs st tr i :
  execute evs = Some (st, tr) →
  count (is_delivery i) tr = has_wrapper (calls st !! i)
  ∧ count (is_delivery i) tr ≤ 1.
Proof.
  intros Hex.
  assert (count (is_delivery i) tr = has_wrapper (calls st !! i)) as Heq.
  { revert evs st tr Hex.
    apply (execute_ind (λ _ st tr,
             count (is_delivery i) tr = has_wrapper (calls st !! i))).
    - by destruct i as [|[|i]].
    - intros evs st tr e st' out Hex IH Hs. rewrite count_app, IH.
      destruct (execute_agrees _ _ _ Hex) as [Hover _].
      apply step_inv in Hs
        as [(-> & n & Hn & -> & ->)|(i0 & s & s' & Ht & Hi & Hh & ->)];
        cbn [calls ticks].
      + rewrite lookup_app. destruct (calls st !! i) as [s|]; [done|].
        by destruct (i - length (calls st)) as [|[|m]].
      + destruct (decide (i0 = i)) as [->|Hne].
        * rewrite list_lookup_insert_eq by (by eapply lookup_lt_Some).
          rewrite Hi, Nat.add_comm. eapply handle_delivery; [|done].
          by apply (proj1 (Forall_lookup _ _) Hover _ _ Hi).
        * rewrite list_lookup_insert_ne by done.
          by rewrite (handle_delivery_other _ _ _ _ _ i Hne Hh), Nat.add_0_r. }
  split; [done|]. rewrite Heq. unfold has_wrapper.
  destruct (_ ≫= _); lia.
Qed.

(** ** From a dead channel to a new connection *)

Lemma step_ch_close_state st i j raised st' out :
  step st (ev_ch_close i j raised) = Some (st', out) →
  ∃ s k c, calls st !! i = Some s ∧ established s = Some k
           ∧ channels k !! j = Some c
           ∧ count is_nextTick out = 0
           ∧ st' = State (<[i := Supervisor (activeConnection s) (spec s)
                                  (Some (Connection (con k) (lastError k)
                                           (connectionClosed k)
                                           (<[j := Channel (target c)
                                                     (channelClosedByClient c) true]>
                                              (channels k))))]> (calls st))
                         (ticks st).
Proof.
  intros (s & s' & Hi & Hh & ->)%(step_target_inv _ _ i); [|done].
  simpl in Hh. destruct (established s) as [k|] eqn:Hk; [|done]. simpl in Hh.
  unfold ch_on_close in Hh. destruct (channels k !! j) as [c|] eqn:Hj; [|done].
  simpl in Hh. injection Hh as <- <-. exists s, k, c.
  assert (count is_nextTick
            (if channelClosedByClient c then []
             else rethrow (closeConnection k raised)) = 0) as Hn.
  { destruct (channelClosedByClient c); [done|]. rewrite rethrow_closeConnection.
    destruct raised as [e|]; [|done]. by destruct (String.eqb _ _). }
  repeat split; try done. simpl. by rewrite Hn, Nat.add_0_r.
Qed.

(** X8: a channel that closes without the client having called its proxy's
    [close] takes the connection down and a new one is requested.  On a
    connection whose wrapper's [close] was not called and whose latest error,
    if any, is not classified unrecoverable, the channel's 'close' listener
    calls the raw [con.close()] and schedules nothing itself; the connection's
    'close' event that follows schedules the reconnect, the only one queued. *)
Theorem channel_close_cascades_to_reconnect evs st tr i j raised st1 out1 st2 out2 :
  execute evs = Some (st, tr) →
  (∀ cb, cl_ch_close i j cb ∉ evs) →
  (∀ cb, cl_close i cb ∉ evs) →
  (∀ e, last_error i evs = Some e → isErrorUnrecoverable e = false) →
  step st (ev_ch_close i j raised) = Some (st1, out1) →
  step st1 (ev_con_close i) = Some (st2, out2) →
  (∃ c, head out1 = Some (con_close c None))
  ∧ count is_nextTick out1 = 0 ∧ ticks st1 = 0
  ∧ out2 = [nextTick_connect url] ∧ ticks st2 = 1.
Proof.
  intros Hex Hnoch Hnoclose Herr Hs1 Hs2.
  destruct (step_ch_close_inv _ _ _ _ _ _ Hs1) as (s & k & c & Hi & Hk & Hj & Hout1).
  destruct (step_ch_close_state _ _ _ _ _ _ Hs1)
    as (s0 & k0 & c0 & Hi0 & Hk0 & Hj0 & Hn & ->).
  rewrite Hi in Hi0. injection Hi0 as <-. rewrite Hk in Hk0. injection Hk0 as <-.
  rewrite Hj in Hj0. injection Hj0 as <-.
  pose proof (lookup_lt_Some _ _ _ Hi) as Hlen.
  eapply step_con_close_inv in Hs2 as (Hopen & Hout2 & ->);
    [|simpl; by apply list_lookup_insert_eq|done].
  simpl in Hopen, Hout2.
  assert (activeConnection s ≠ None) as Hactive.
  { rewrite (marker_of_history _ _ _ _ _ _ Hex Hi Hk). intros [cb Hin].
    by apply (Hnoclose cb). }
  assert (lastError k = last_error i evs) as Hlast.
  { rewrite <- (execute_lastError _ _ _ i Hex), Hi. simpl. by rewrite Hk. }
  rewrite Hlast in Hout2.
  rewrite (proj2 (should_reconnect_true _ _) (conj Hactive Herr)) in Hout2.
  assert (1 ≤ live_sup s) as Hlive.
  { unfold live_sup, is_open. rewrite Hk, Hopen. simpl. lia. }
  destruct (live_exclusive _ _ _ (execute_live _ _ _ Hex) Hi Hlive) as (Ht & _).
  assert (channelClosedByClient c = false) as Hflag.
  { destruct (execute_agrees _ _ _ Hex) as [_ Hag].
    destruct (Hag i) as (_ & _ & Hfl). specialize (Hfl j).
    rewrite Hi in Hfl. simpl in Hfl. rewrite Hk, Hj in Hfl. simpl in Hfl.
    rewrite Hfl. apply not_true_is_false. rewrite ch_closed_by_client_true.
    intros [cb Hin]. by apply (Hnoch cb). }
  rewrite Hflag, rethrow_closeConnection in Hout1. subst out1 out2.
  simpl. rewrite Ht. repeat split; try done. by eexists.
Qed.

(** ** Recovery goes on, or has ended for good *)



(** X11: a 'close' event that schedules no reconnect ends the recovery for
    good: whatever events follow, no connect attempt is started, no reconnect
    is scheduled and [connectCallback] is not invoked again. *)
Theorem close_without_reconnect_is_final evs st tr i st1 evs' st2 tr2 :
  execute evs = Some (st, tr) →
  step st (ev_con_close i) = Some (st1, []) →
  run st1 evs' = Some (st2, tr2) →
  count is_amqp_connect tr2 = 0 ∧ count is_nextTick tr2 = 0
  ∧ count is_connectCallback tr2 = 0 ∧ ticks st2 = 0.
Proof.
  intros Hex Hs Hr.
  destruct (step_con_close_open _ _ _ _ Hs) as (s & k & Hi & Hk & Hopen).
  destruct (step_con_close_inv _ _ _ _ _ _ Hi Hk Hs) as (_ & _ & ->).
  assert (1 ≤ live_sup s) as Hlive.
  { unfold live_sup, is_open. rewrite Hk, Hopen. simpl. lia. }
  pose proof (execute_live _ _ _ Hex) as Hl.
  destruct (live_exclusive _ _ _ Hl Hi Hlive) as (_ & Hone & _).
  set (s1 := Supervisor _ _ _) in Hr.
  assert (idle s1 = true) as Hidle.
  { unfold live_sup, is_open in Hone. rewrite Hk, Hopen in Hone. simpl in Hone.
    unfold idle, is_open, looping, s1 in *. simpl.
    destruct (spec s); simpl in *; done || lia. }
  pose proof (quiescent_insert _ _ _ _ Hl Hi Hlive Hidle) as Hq.
  simpl in Hr. rewrite Nat.add_0_r in Hr.
  destruct (run_quiescent _ _ _ _ Hq Hr) as [[Ht _] Hact].
  destruct (count_activity_zero _ Hact) as (? & ? & ?). done.
Qed.

End withAutoRecovery.

(** * The worked scenario, run *)

(** Without a classifier of the client's, no error is unrecoverable. *)
Example default_classifier e : isErrorUnrecoverable (Options None) e = false.
Proof. reflexivity. Qed.

(** The broker refuses every connection: the callback receives the error once
    per attempt, and the loop goes on. *)
Example connect_refused_repeatedly :
  execute (Options None) example_url
    [ev_connected 0 (inl ECONNREFUSED); ev_backoff_ready 0;
     ev_connected 0 (inl ECONNREFUSED); ev_backoff_ready 0;
     ev_connected 0 (inl ECONNREFUSED)]
  = Some (State [Supervisor None backing_off None] 0,
          [amqp_connect example_url; connectCallback (Some ECONNREFUSED) None;
           amqp_connect example_url; connectCallback (Some ECONNREFUSED) None;
           amqp_connect example_url; connectCallback (Some ECONNREFUSED) None]).
Proof. reflexivity. Qed.

(** The connection comes up at once and the client closes it: [closed]
    becomes true, nothing is queued, and [connectCallback] was called once. *)
Example connect_then_close :
  execute (Options None) example_url
    [ev_connected 0 (inr 7); cl_close 0 (Some 1); ev_con_close 0]
  = Some (State [Supervisor None completed (Some (Connection 7 None true []))] 0,
          [amqp_connect example_url; connectCallback None (Some 0);
           backoff_callback; con_close 7 (Some 1)]).
Proof. reflexivity. Qed.

(** A channel dies on a live connection; the forced close brings the
    connection down, and a new [connect] invocation takes over. *)
Example channel_failure_reconnects :
  execute example_options example_url
    [ev_connected 0 (inr 7); cl_createChannel 0 false 3;
     ev_channel 0 3 (inr 11) None; ev_ch_close 0 0 None; ev_con_close 0;
     ev_tick; ev_connected 1 (inr 8)]
  = Some (State [Supervisor (Some 7) completed
                   (Some (Connection 7 None true [Channel 11 false true]));
                 Supervisor (Some 8) completed
                   (Some (Connection 8 None false []))] 0,
          [amqp_connect example_url; connectCallback None (Some 0);
           backoff_callback; con_createChannel 7 false 3;
           channel_callback 3 None (Some (0, 0)); con_close 7 None;
           nextTick_connect example_url; amqp_connect example_url;
           connectCallback None (Some 1); backoff_callback]).
Proof. reflexivity. Qed.

(** The connection [up] closes unexpectedly: one reconnect is queued, and its run starts an attempt. *)
Lemma close_event_reconnects_iff_witness :
  ∃ st',
    step example_options example_url up (ev_con_close 0)
    = Some (st', [nextTick_connect example_url])
    ∧ ticks st' = 1
    ∧ ∃ st'', step example_options example_url st' ev_tick
              = Some (st'', [amqp_connect example_url]).
Proof.
  eexists. split; [reflexivity|].
  destruct (close_event_reconnects_iff example_options example_url up 0 _ _ _ _
              eq_refl eq_refl eq_refl) as (_ & _ & Hticks & Htick).
  split; [exact Hticks|]. apply Htick. apply list_elem_of_here.
Defined.

(** Two refused attempts, then raw connection 7. *)
Lemma connectCallback_once_per_attempt_witness :
  Forall (λ e, isErrorUnrecoverable example_options e = false)
    [ECONNREFUSED; ECONNREFUSED]
  ∧ ∃ st' tr,
      run example_options example_url (boot example_url).1
        (attempts 0 [ECONNREFUSED; ECONNREFUSED] 7) = Some (st', tr)
      ∧ List.filter is_connectCallback tr
        = [connectCallback (Some ECONNREFUSED) None;
           connectCallback (Some ECONNREFUSED) None;
           connectCallback None (Some 0)].
Proof.
  assert (Forall (λ e, isErrorUnrecoverable example_options e = false)
            [ECONNREFUSED; ECONNREFUSED]) as Herrs.
  { repeat constructor. }
  split; [exact Herrs|].
  destruct (connectCallback_once_per_attempt example_options example_url
              (boot example_url).1 0 _ [ECONNREFUSED; ECONNREFUSED] 7
              eq_refl eq_refl Herrs) as [(st' & tr & Hr & Hcb & _) _].
  exists st', tr. split; [exact Hr|exact Hcb].
Defined.

(** The second attempt is refused for good: two attempts, two callbacks. *)
Lemma unrecoverable_error_gives_up_witness :
  ∃ st tr st1 out,
    execute example_options example_url
      [ev_connected 0 (inl ECONNREFUSED); ev_backoff_ready 0] = Some (st, tr)
    ∧ step example_options example_url st (ev_connected 0 (inl ACCESS_REFUSED))
      = Some (st1, out)
    ∧ isErrorUnrecoverable example_options ACCESS_REFUSED = true
    ∧ out = [connectCallback (Some ACCESS_REFUSED) None; backoff_callback]
    ∧ count is_connectCallback (tr ++ out) = 2
    ∧ count is_amqp_connect (tr ++ out) = 2.
Proof.
  do 4 eexists. split; [reflexivity|]. split; [reflexivity|]. split; [reflexivity|].
  destruct (unrecoverable_error_gives_up example_options example_url
              [ev_connected 0 (inl ECONNREFUSED); ev_backoff_ready 0] _ _ 0
              ACCESS_REFUSED _ _ eq_refl eq_refl eq_refl) as (Hout & _ & Hk & _).
  split; [exact Hout|]. split; [reflexivity|]. rewrite <- Hk. reflexivity.
Defined.

(** The client closes [up]; an error and the close event follow. *)
Lemma close_then_close_event_never_reconnects_witness :
  ∃ st' tr,
    execute example_options example_url [ev_connected 0 (inr 7)]
    = Some (up, [amqp_connect example_url; connectCallback None (Some 0);
                 backoff_callback])
    ∧ run example_options example_url up
        [cl_close 0 (Some 1); ev_con_error 0 ECONNREFUSED; ev_con_close 0]
      = Some (st', tr)
    ∧ ev_con_close 0 ∈ [ev_con_error 0 ECONNREFUSED; ev_con_close 0]
    ∧ count is_amqp_connect tr = 0 ∧ count is_nextTick tr = 0
    ∧ count is_connectCallback tr = 0 ∧ ticks st' = 0.
Proof.
  assert (ev_con_close 0 ∈ [ev_con_error 0 ECONNREFUSED; ev_con_close 0]) as Hin.
  { apply list_elem_of_further, list_elem_of_here. }
  do 2 eexists. split; [reflexivity|]. split; [reflexivity|]. split; [exact Hin|].
  exact (proj2 (close_then_close_event_never_reconnects example_options example_url
                  [ev_connected 0 (inr 7)] up _ 0 (Some 1)
                  [ev_con_error 0 ECONNREFUSED; ev_con_close 0] _ _
                  eq_refl eq_refl Hin)).
Defined.

(** C5 as first stated has no condition on the marker.  It fails when the
    client has called [close] before [closeAndReconnect]: no error was
    recorded, [closeAndReconnect] delegates to the raw close, the 'close'
    event follows, and no connect attempt is started, now or later. *)
Lemma closeAndReconnect_after_close_counterexample :
  ∃ st st1 st2,
    execute example_options example_url [ev_connected 0 (inr 7); cl_close 0 None]
    = Some (st, [amqp_connect example_url; connectCallback None (Some 0);
                 backoff_callback; con_close 7 None])
    ∧ (s ← calls st !! 0; k ← established s; lastError k) = None
    ∧ step example_options example_url st (cl_closeAndReconnect 0 None)
      = Some (st1, [con_close 7 None])
    ∧ step example_options example_url st1 (ev_con_close 0) = Some (st2, [])
    ∧ ticks st2 = 0
    ∧ step example_options example_url st2 ev_tick = None.
Proof. do 3 eexists. repeat split. Qed.

(** The client rotates the connection [up]. *)
Lemma closeAndReconnect_reconnects_once_witness :
  ∃ st2 st3,
    execute example_options example_url [ev_connected 0 (inr 7)]
    = Some (up, [amqp_connect example_url; connectCallback None (Some 0);
                 backoff_callback])
    ∧ step example_options example_url up (cl_closeAndReconnect 0 (Some 1))
      = Some (up, [con_close 7 (Some 1)])
    ∧ step example_options example_url up (ev_con_close 0)
      = Some (st2, [nextTick_connect example_url])
    ∧ ticks st2 = 1
    ∧ step example_options example_url st2 ev_tick
      = Some (st3, [amqp_connect example_url])
    ∧ ticks st3 = 0.
Proof.
  assert (∀ cb', cl_close 0 cb' ∉ [ev_connected 0 (inr 7)]) as Hnoclose.
  { intros cb' Hin. apply list_elem_of_singleton in Hin. discriminate Hin. }
  assert (∀ e, lastError (Connection 7 None false []) = Some e →
               isErrorUnrecoverable example_options e = false) as Herr.
  { intros e Hlast. discriminate Hlast. }
  destruct (closeAndReconnect_reconnects_once example_options example_url
              [ev_connected 0 (inr 7)] up _ 0 (Some 1) up _ _ _ _ _
              eq_refl eq_refl eq_refl Hnoclose Herr eq_refl eq_refl)
    as (_ & _ & _ & _ & Hticks & st3 & Htick & Hticks3).
  eexists _, st3. split; [reflexivity|]. split; [reflexivity|].
  split; [reflexivity|]. split; [exact Hticks|]. split; [exact Htick|exact Hticks3].
Defined.

(** [closed] before and after the close event of [up]. *)
Lemma closed_latches_witness :
  ∃ st tr,
    execute example_options example_url [ev_connected 0 (inr 7); ev_con_close 0]
    = Some (st, tr)
    ∧ wrapper_closed up 0 = Some false
    ∧ wrapper_closed st 0 = Some true
    ∧ ev_con_close 0 ∈ [ev_connected 0 (inr 7); ev_con_close 0].
Proof.
  do 2 eexists. split; [reflexivity|]. split; [reflexivity|]. split; [reflexivity|].
  destruct (closed_latches example_options example_url
              [ev_connected 0 (inr 7); ev_con_close 0] _ _ 0 eq_refl)
    as (_ & Hiff & _).
  apply (Hiff true eq_refl). reflexivity.
Defined.

(** A channel closed by the client, and one closed by the broker. *)
Lemma channel_close_cascade_witness :
  ∃ st tr st' out,
    execute example_options example_url
      [ev_connected 0 (inr 7); cl_createChannel 0 false 3;
       ev_channel 0 3 (inr 11) None; cl_ch_close 0 0 None] = Some (st, tr)
    ∧ step example_options example_url st (ev_ch_close 0 0 None) = Some (st', out)
    ∧ out = []
    ∧ step example_options example_url up_with_channel (ev_ch_close 0 0 None)
      = Some (State [Supervisor (Some 7) completed
                       (Some (Connection 7 None false [Channel 11 false true]))] 0,
              [con_close 7 None]).
Proof.
  do 4 eexists. split; [reflexivity|]. split; [reflexivity|]. split; [|reflexivity].
  apply (proj1 (channel_close_cascade example_options example_url
                  [ev_connected 0 (inr 7); cl_createChannel 0 false 3;
                   ev_channel 0 3 (inr 11) None; cl_ch_close 0 0 None]
                  _ _ 0 0 None _ _ eq_refl eq_refl)).
  exists None. do 3 apply list_elem_of_further. apply list_elem_of_here.
Defined.

(** The forced close of an already closing connection, and one that fails otherwise. *)
Lemma forced_close_swallows_only_IllegalOperationError_witness :
  ∃ st' out,
    step example_options example_url up_with_channel
      (ev_ch_close 0 0 (Some CONNECTION_CLOSING)) = Some (st', out)
    ∧ name CONNECTION_CLOSING = "IllegalOperationError"
    ∧ out = [con_close 7 None]
    ∧ step example_options example_url up_with_channel
        (ev_ch_close 0 0 (Some ECONNREFUSED))
      = Some (st', [con_close 7 None; uncaught ECONNREFUSED]).
Proof.
  do 2 eexists. split; [reflexivity|]. split; [reflexivity|]. split; [|reflexivity].
  apply (proj1 (forced_close_swallows_only_IllegalOperationError
                  example_options example_url up_with_channel 0 0
                  CONNECTION_CLOSING _ _ _ _ _
                  eq_refl eq_refl eq_refl eq_refl eq_refl)).
  reflexivity.
Defined.

(** A connection-level error on [up]. *)
Lemma connection_error_only_records_witness :
  ∃ st',
    step example_options example_url up (ev_con_error 0 ECONNREFUSED)
    = Some (st', [onError "Connection failed (connect ECONNREFUSED)"])
    ∧ st' = State [Supervisor (Some 7) completed
                     (Some (Connection 7 (Some ECONNREFUSED) false []))] 0.
Proof.
  eexists. split; [reflexivity|].
  exact (proj1 (proj2 (connection_error_only_records example_options example_url
                         up 0 ECONNREFUSED _ _ _ _ eq_refl eq_refl eq_refl))).
Defined.

(** Channel creation fails on [up] with a recoverable error; the close event follows. *)
Lemma channel_creation_failure_witness :
  ∃ st' st'',
    step example_options example_url up (ev_channel 0 3 (inl ECONNREFUSED) None)
    = Some (st', [onError "Failed to create a channel (connect ECONNREFUSED)";
                  channel_callback 3 (Some ECONNREFUSED) None;
                  con_close 7 None])
    ∧ step example_options example_url st' (ev_con_close 0)
      = Some (st'', [nextTick_connect example_url])
    ∧ nextTick_connect example_url ∈ [nextTick_connect example_url].
Proof.
  do 2 eexists. split; [reflexivity|]. split; [reflexivity|].
  destruct (channel_creation_failure example_options example_url up 0 3
              ECONNREFUSED None _ _ _ _ eq_refl eq_refl eq_refl)
    as (_ & _ & _ & _ & _ & Hnext).
  destruct (Hnext _ _ eq_refl) as [Hiff _]. apply Hiff.
  split; [discriminate|reflexivity].
Defined.

(** After a reconnect, the new connection is the only open one. *)
Lemma at_most_one_open_connection_witness :
  ∃ st tr,
    execute example_options example_url
      [ev_connected 0 (inr 7); ev_con_close 0; ev_tick; ev_connected 1 (inr 8)]
    = Some (st, tr)
    ∧ (is_open <$> calls st !! 1) = Some true
    ∧ (is_open <$> calls st !! 0) = Some false
    ∧ ticks st = 0.
Proof.
  do 2 eexists. split; [reflexivity|]. split; [reflexivity|]. split; [reflexivity|].
  exact (proj1 (at_most_one_open_connection example_options example_url
                  [ev_connected 0 (inr 7); ev_con_close 0; ev_tick;
                   ev_connected 1 (inr 8)] _ _ 1 _ eq_refl eq_refl eq_refl)).
Defined.

(** * More of the scenario *)

(** An event of one kind is not in a history written out in full. *)
Ltac not_in_history :=
  let Hin := fresh "Hin" in
  intros ? Hin;
  repeat (apply elem_of_cons in Hin as [Hin|Hin]; [discriminate Hin|]);
  apply elem_of_nil in Hin; destruct Hin.

(** The channel of [up_with_channel] is closed by the broker. *)
Lemma channel_closed_latches_witness :
  ∃ st tr,
    execute example_options example_url
      [ev_connected 0 (inr 7); ev_channel 0 3 (inr 11) None; ev_ch_close 0 0 None]
    = Some (st, tr)
    ∧ proxy_closed up_with_channel 0 0 = Some false
    ∧ proxy_closed st 0 0 = Some true
    ∧ ∃ raised,
        ev_ch_close 0 0 raised
        ∈ [ev_connected 0 (inr 7); ev_channel 0 3 (inr 11) None;
           ev_ch_close 0 0 None].
Proof.
  do 2 eexists. split; [reflexivity|]. split; [reflexivity|]. split; [reflexivity|].
  apply (proj2 (channel_closed_latches example_options example_url
                  [ev_connected 0 (inr 7); ev_channel 0 3 (inr 11) None;
                   ev_ch_close 0 0 None] _ _ 0 0 eq_refl) true eq_refl).
  reflexivity.
Defined.

(** Two connection errors with the same message, reported alike. *)
Lemma onError_identifies_origin_witness :
  ∃ og err1 err2,
    origin_of (ev_con_error 0 ECONNREFUSED) = Some (og, err1)
    ∧ origin_of (ev_con_error 0 (Error "SystemError" "connect ECONNREFUSED"))
      = Some (og, err2)
    ∧ "Connection failed (connect ECONNREFUSED)" = report og err1
    ∧ message err1 = message err2.
Proof.
  apply (onError_identifies_origin example_options example_url
           up (ev_con_error 0 ECONNREFUSED)
           (State [Supervisor (Some 7) completed
                     (Some (Connection 7 (Some ECONNREFUSED) false []))] 0)
           [onError "Connection failed (connect ECONNREFUSED)"]
           up (ev_con_error 0 (Error "SystemError" "connect ECONNREFUSED"))
           (State [Supervisor (Some 7) completed
                     (Some (Connection 7
                              (Some (Error "SystemError" "connect ECONNREFUSED"))
                              false []))] 0)
           [onError "Connection failed (connect ECONNREFUSED)"]);
    first [reflexivity | apply list_elem_of_here].
Defined.


(** One attempt refused, the next one outstanding. *)
Lemma connectCallback_accounting_witness :
  ∃ st tr,
    execute example_options example_url
      [ev_connected 0 (inl ECONNREFUSED); ev_backoff_ready 0] = Some (st, tr)
    ∧ count is_amqp_connect tr = 2
    ∧ count is_connectCallback tr + in_flight st = count is_amqp_connect tr
    ∧ in_flight st ≤ 1.
Proof.
  do 2 eexists. split; [reflexivity|]. split; [reflexivity|].
  exact (connectCallback_accounting example_options example_url
           [ev_connected 0 (inl ECONNREFUSED); ev_backoff_ready 0] _ _ eq_refl).
Defined.

(** An unrecoverable connection error, then a recoverable channel error. *)
Lemma lastError_is_latest_error_witness :
  ∃ st tr s k,
    execute example_options example_url
      [ev_connected 0 (inr 7); ev_con_error 0 ACCESS_REFUSED;
       ev_channel 0 3 (inr 11) None; ev_ch_error 0 0 ECONNREFUSED] = Some (st, tr)
    ∧ calls st !! 0 = Some s ∧ established s = Some k
    ∧ last_error 0 [ev_connected 0 (inr 7); ev_con_error 0 ACCESS_REFUSED;
                    ev_channel 0 3 (inr 11) None; ev_ch_error 0 0 ECONNREFUSED]
      = Some ECONNREFUSED
    ∧ lastError k
      = last_error 0 [ev_connected 0 (inr 7); ev_con_error 0 ACCESS_REFUSED;
                      ev_channel 0 3 (inr 11) None; ev_ch_error 0 0 ECONNREFUSED].
Proof.
  do 4 eexists. split; [reflexivity|]. split; [reflexivity|].
  split; [reflexivity|]. split; [reflexivity|].
  exact (lastError_is_latest_error example_options example_url
           [ev_connected 0 (inr 7); ev_con_error 0 ACCESS_REFUSED;
            ev_channel 0 3 (inr 11) None; ev_ch_error 0 0 ECONNREFUSED]
           _ _ 0 _ _ eq_refl eq_refl eq_refl).
Defined.

(** After the same history the connection closes: the later, recoverable
    error counts, and a reconnect is scheduled. *)
Lemma reconnect_decided_by_history_witness :
  ∃ st tr st' out,
    execute example_options example_url
      [ev_connected 0 (inr 7); ev_con_error 0 ACCESS_REFUSED;
       ev_channel 0 3 (inr 11) None; ev_ch_error 0 0 ECONNREFUSED] = Some (st, tr)
    ∧ step example_options example_url st (ev_con_close 0) = Some (st', out)
    ∧ nextTick_connect example_url ∈ out.
Proof.
  do 4 eexists. split; [reflexivity|]. split; [reflexivity|].
  apply (proj1 (reconnect_decided_by_history example_options example_url
                  [ev_connected 0 (inr 7); ev_con_error 0 ACCESS_REFUSED;
                   ev_channel 0 3 (inr 11) None; ev_ch_error 0 0 ECONNREFUSED]
                  _ _ 0 _ _ eq_refl eq_refl)).
  split; [not_in_history|]. intros e He. injection He as <-. reflexivity.
Defined.

(** The broker closes the channel of a live connection. *)
Lemma channel_close_cascades_to_reconnect_witness :
  ∃ st tr st1 out1 st2 out2,
    execute example_options example_url
      [ev_connected 0 (inr 7); ev_channel 0 3 (inr 11) None] = Some (st, tr)
    ∧ step example_options example_url st (ev_ch_close 0 0 None) = Some (st1, out1)
    ∧ step example_options example_url st1 (ev_con_close 0) = Some (st2, out2)
    ∧ out1 = [con_close 7 None]
    ∧ out2 = [nextTick_connect example_url] ∧ ticks st2 = 1.
Proof.
  do 6 eexists. split; [reflexivity|]. split; [reflexivity|].
  split; [reflexivity|]. split; [reflexivity|].
  refine (proj2 (proj2 (proj2
            (channel_close_cascades_to_reconnect example_options example_url
               [ev_connected 0 (inr 7); ev_channel 0 3 (inr 11) None]
               _ _ 0 0 None _ _ _ _ eq_refl _ _ _ eq_refl eq_refl)))).
  - not_in_history.
  - not_in_history.
  - intros e He. discriminate He.
Defined.

(** The first connection is delivered once; its successor not yet. *)
Lemma one_wrapper_per_invocation_witness :
  ∃ st tr,
    execute example_options example_url
      [ev_connected 0 (inr 7); ev_con_close 0; ev_tick] = Some (st, tr)
    ∧ has_wrapper (calls st !! 0) = 1
    ∧ count (is_delivery 0) tr = has_wrapper (calls st !! 0)
    ∧ count (is_delivery 0) tr ≤ 1.
Proof.
  do 2 eexists. split; [reflexivity|]. split; [reflexivity|].
  exact (one_wrapper_per_invocation example_options example_url
           [ev_connected 0 (inr 7); ev_con_close 0; ev_tick] _ _ 0 eq_refl).
Defined.


(** The connection closes after an authentication error: nothing follows. *)
Lemma close_without_reconnect_is_final_witness :
  ∃ st tr st1 st2 tr2,
    execute example_options example_url
      [ev_connected 0 (inr 7); ev_con_error 0 ACCESS_REFUSED] = Some (st, tr)
    ∧ step example_options example_url st (ev_con_close 0) = Some (st1, [])
    ∧ run example_options example_url st1
        [ev_con_error 0 ECONNREFUSED; cl_closeAndReconnect 0 None] = Some (st2, tr2)
    ∧ count is_amqp_connect tr2 = 0 ∧ count is_nextTick tr2 = 0
    ∧ count is_connectCallback tr2 = 0 ∧ ticks st2 = 0.
Proof.
  do 5 eexists. split; [reflexivity|]. split; [reflexivity|].
  split; [reflexivity|].
  exact (close_without_reconnect_is_final example_options example_url
           [ev_connected 0 (inr 7); ev_con_error 0 ACCESS_REFUSED] _ _ 0 _
           [ev_con_error 0 ECONNREFUSED; cl_closeAndReconnect 0 None] _ _
           eq_refl eq_refl eq_refl).
Defined.
